(** * The command relay of [app.py], embedded in Rocq

    [app.py] is a Flask application holding three process-wide dictionaries
    ([command_queue], [results_store], [device_last_seen]) and a directory of
    uploaded files.  Each HTTP handler is embedded as a function from the
    state before the request to the response and the state after it; the
    background thread [cleanup_old_data] is embedded as one pass of its loop
    body.  Handlers are taken to run one at a time (the interleaving of
    threads inside a handler is outside this development).

    Python values are modelled as follows.
    - [datetime] / [timedelta]: a number of microseconds ([Z]); comparison
      and subtraction of datetimes are exact integer operations.
    - a parsed JSON body: the inductive [json]; numbers are integers.
    - [request.json]: the parsed body, or the exception Flask raises when
      the request has no JSON body ([UnsupportedMediaType], answered 415) or
      a body that does not parse ([BadRequest]).
    - a [dict]: a [gmap]; no property below depends on iteration order.
    - an uncaught exception (Flask answers 500): the outcome [Raise]. *)

From stdpp Require Import gmap strings list fin_maps pretty sorting.

#[local] Set Warnings "-register-all".
#[local] Open Scope Z_scope.

(** ** Python values *)

Inductive json :=
| JNull
| JBool (b : bool)
| JNum (n : Z)
| JStr (s : string)
| JArr (items : list json)
| JObj (fields : gmap string json).

Inductive exn :=
| TypeError
| KeyError
| AttributeError
| OSError
| UnsupportedMediaType
| BadRequest.

(** A computation that returns a value or raises. *)
Inductive py (A : Type) :=
| Val (a : A)
| Exc (e : exn).
Arguments Val {A} a.
Arguments Exc {A} e.

#[global] Instance py_ret : MRet py := λ A a, Val a.
#[global] Instance py_bind : MBind py :=
  λ A B f m, match m with Val a => f a | Exc e => Exc e end.

(** [bool(x)]: [None], [False], [0] and empty containers are falsy. *)
Definition truthy (x : json) : bool :=
  match x with
  | JNull => false
  | JBool b => b
  | JNum n => negb (n =? 0)
  | JStr s => negb (String.eqb s "")
  | JArr items => match items with [] => false | _ => true end
  | JObj fields => negb (Nat.eqb (size fields) 0)
  end.

Definition is_str (key : string) (x : json) : bool :=
  match x with JStr s => String.eqb key s | _ => false end.

(** [key in x] for a string [key]: key membership on a dict, element
    membership on a list, substring test on a string, [TypeError] on the
    values that are not iterable. *)
Definition py_in (key : string) (x : json) : py bool :=
  match x with
  | JObj fields => Val (bool_decide (is_Some (fields !! key)))
  | JArr items => Val (existsb (is_str key) items)
  | JStr s => Val (bool_decide (is_Some (String.index 0 key s)))
  | JNull | JBool _ | JNum _ => Exc TypeError
  end.

(** [x[key]] for a string [key]. *)
Definition py_getitem (x : json) (key : string) : py json :=
  match x with
  | JObj fields =>
      match fields !! key with Some v => Val v | None => Exc KeyError end
  | _ => Exc TypeError
  end.

(** [x.get(key, dflt)]. *)
Definition py_get (x : json) (key : string) (dflt : json) : py json :=
  match x with
  | JObj fields => Val (default dflt (fields !! key))
  | _ => Exc AttributeError
  end.

(** The JSON values that can be dictionary keys.  Lists and dicts are
    unhashable. *)
Inductive hashable :=
| HNone
| HBool (b : bool)
| HInt (n : Z)
| HStr (s : string).

Definition as_hashable (x : json) : py hashable :=
  match x with
  | JNull => Val HNone
  | JBool b => Val (HBool b)
  | JNum n => Val (HInt n)
  | JStr s => Val (HStr s)
  | JArr _ | JObj _ => Exc TypeError
  end.

(** Dictionary keys up to Python's [==]: [True == 1] and [False == 0]. *)
Inductive pykey :=
| KNone
| KInt (n : Z)
| KStr (s : string).

Definition key_of (h : hashable) : pykey :=
  match h with
  | HNone => KNone
  | HBool b => KInt (if b then 1 else 0)
  | HInt n => KInt n
  | HStr s => KStr s
  end.

(** [str(x)], as used by the f-string of [post_command]. *)
Definition py_str (h : hashable) : string :=
  match h with
  | HNone => "None"
  | HBool b => if b then "True" else "False"
  | HInt n => pretty n
  | HStr s => s
  end.

#[global] Instance pykey_eq_dec : EqDecision pykey.
Proof. solve_decision. Defined.

#[global] Instance pykey_countable : Countable pykey.
Proof.
  refine (inj_countable'
    (λ k, match k with
          | KNone => inl ()
          | KInt n => inr (inl n)
          | KStr s => inr (inr s)
          end)
    (λ x, match x with
          | inl _ => KNone
          | inr (inl n) => KInt n
          | inr (inr s) => KStr s
          end) _).
  by intros [].
Defined.

(** ** Time *)

Definition microseconds_per_second : Z := 1000000.

Definition timedelta (hours minutes : Z) : Z :=
  (hours * 60 + minutes) * 60 * microseconds_per_second.

Definition RESULT_EXPIRY : Z := timedelta 1 0.
Definition DEVICE_TIMEOUT : Z := timedelta 0 10.

(** ** The stores *)

Module Command.
Record t := mk {
  id : string;
  action : json;
  params : json;
  timestamp : Z
}.
End Command.

(** An entry of [results_store]: the dict with ['type': 'file'] or the one
    with ['type': 'data']. *)
Inductive result :=
| FileResult (file_path filename : string) (timestamp : Z)
| DataResult (data : json) (timestamp : Z).

Definition result_timestamp (v : result) : Z :=
  match v with
  | FileResult _ _ t => t
  | DataResult _ t => t
  end.

Definition bytes := list Byte.byte.

Module FileStorage.
Record t := mk {
  filename : string;
  content : bytes
}.
End FileStorage.

(** What [post_result] reads of the Flask request: [request.files], and
    what evaluating [request.json] gives: the parsed body, or the exception
    it raises when the request has no JSON body or one that does not
    parse. *)
Module Request.
Record t := mk {
  files : gmap string FileStorage.t;
  json : py json
}.
End Request.

Record state := State {
  command_queue : gmap pykey (list Command.t);
  results_store : gmap string result;
  device_last_seen : gmap string Z;
  disk : gmap string bytes
}.

Definition initial : state :=
  {| command_queue := ∅; results_store := ∅; device_last_seen := ∅;
     disk := ∅ |}.

Definition set_command_queue (q : gmap pykey (list Command.t)) (s : state) :=
  {| command_queue := q; results_store := results_store s;
     device_last_seen := device_last_seen s; disk := disk s |}.

Definition set_results_store (r : gmap string result) (s : state) :=
  {| command_queue := command_queue s; results_store := r;
     device_last_seen := device_last_seen s; disk := disk s |}.

Definition set_device_last_seen (d : gmap string Z) (s : state) :=
  {| command_queue := command_queue s; results_store := results_store s;
     device_last_seen := d; disk := disk s |}.

Definition set_disk (d : gmap string bytes) (s : state) :=
  {| command_queue := command_queue s; results_store := results_store s;
     device_last_seen := device_last_seen s; disk := d |}.

(** ** Responses *)

Module Device.
Record t := mk {
  last_seen : Z;
  seconds_ago : Z;
  status : string
}.
End Device.

Inductive reply :=
| Status (active_devices : nat)
| Queued (command_id message : string)
| Commands (commands : list Command.t)
| Stored (message : string)
| Payload (data : json)
| Attachment (content : bytes) (download_name : string)
| Devices (devices : gmap string Device.t)
| Healthy (timestamp : Z)
| Error (code : Z) (error : string).

Inductive outcome :=
| Reply (r : reply)
| Raise (e : exn).

(** Runs a handler body; an exception leaves the state as it was when the
    body raised, which for every handler below is the state it started in. *)
Definition handle (s : state) (body : py (reply * state)) : outcome * state :=
  match body with
  | Val (r, s') => (Reply r, s')
  | Exc e => (Raise e, s)
  end.

(** ** The operating system: paths and files *)

Fixpoint ends_with_sep (s : string) : bool :=
  match s with
  | EmptyString => false
  | String c EmptyString => Ascii.eqb c (Ascii.ascii_of_nat 47)
  | String _ rest => ends_with_sep rest
  end.

(** [os.path.join(a, b)] on POSIX. *)
Definition os_path_join (a b : string) : string :=
  if String.prefix "/" b then b
  else if String.eqb a "" || ends_with_sep a then a +:+ b
  else a +:+ "/" +:+ b.

Section OS.
(** Whether the operating system lets the process create or replace, and
    unlink, the file at a path. *)
Variable writable removable : string → bool.

(** [file.save(path)]. *)
Definition file_save (file : FileStorage.t) (path : string)
    (d : gmap string bytes) : py (gmap string bytes) :=
  if writable path then Val (<[path := FileStorage.content file]> d)
  else Exc OSError.

(** [os.remove(path)]: fails when there is no such file. *)
Definition os_remove (path : string) (d : gmap string bytes)
    : py (gmap string bytes) :=
  match d !! path with
  | Some _ => if removable path then Val (delete path d) else Exc OSError
  | None => Exc OSError
  end.

(** [open(path, 'rb').read()], as [send_file] does. *)
Definition read_file (path : string) (d : gmap string bytes) : py bytes :=
  match d !! path with
  | Some content => Val content
  | None => Exc OSError
  end.

(** ** The handlers *)

(** [GET /].  The comprehension reads the clock once per device:
    [now_at d] is the reading taken when device [d] is examined. *)
Definition online_at (now t : Z) : bool := bool_decide (now - t < DEVICE_TIMEOUT).

Definition home (now_at : string → Z) (s : state) : outcome * state :=
  handle s (Val (Status (length (filter (λ dt, online_at (now_at dt.1) dt.2 = true)
                                   (map_to_list (device_last_seen s)))), s)).

Definition missing_fields : reply := Error 400 "Missing device_id or action".

(** [POST /command]; [request_json] is what evaluating [request.json]
    gives, and [uuid] is the value of [str(uuid.uuid4())]. *)
Definition post_command (now : Z) (uuid : string) (request_json : py json)
    (s : state) : outcome * state :=
  handle s (
    data ← request_json;
    if negb (truthy data) then Val (missing_fields, s) else
    has_device ← py_in "device_id" data;
    if negb has_device then Val (missing_fields, s) else
    has_action ← py_in "action" data;
    if negb has_action then Val (missing_fields, s) else
    device_id ← py_getitem data "device_id";
    let command_id := uuid in
    action ← py_getitem data "action";
    params ← py_get data "params" (JObj ∅);
    let command := Command.mk command_id action params now in
    h ← as_hashable device_id;
    let queue := default [] (command_queue s !! key_of h) in
    let s' := set_command_queue
                (<[key_of h := queue ++ [command]]> (command_queue s)) s in
    Val (Queued command_id ("Command queued for device " +:+ py_str h), s')).

(** [GET /command/<device_id>]. *)
Definition get_commands (now : Z) (device_id : string) (s : state)
    : outcome * state :=
  let s1 := set_device_last_seen (<[device_id := now]> (device_last_seen s)) s in
  handle s1 (
    match command_queue s1 !! KStr device_id with
    | None | Some [] => Val (Commands [], s1)
    | Some commands =>
        Val (Commands commands,
             set_command_queue (<[KStr device_id := []]> (command_queue s1)) s1)
    end).

Definition upload_dir : string := "uploads".

(** [POST /result/<command_id>]. *)
Definition post_result (now : Z) (command_id : string) (request : Request.t)
    (s : state) : outcome * state :=
  let handle_json :=
    data ← Request.json request;
    if truthy data then
      Val (Stored "Result stored",
           set_results_store
             (<[command_id := DataResult data now]> (results_store s)) s)
    else Val (Error 400 "No data or file provided", s) in
  handle s (
    match Request.files request !! "file" with
    | Some file =>
        if negb (String.eqb (FileStorage.filename file) "") then
          let file_path :=
            os_path_join upload_dir
              (command_id +:+ "_" +:+ FileStorage.filename file) in
          d ← file_save file file_path (disk s);
          Val (Stored "File uploaded",
               set_results_store
                 (<[command_id :=
                      FileResult file_path (FileStorage.filename file) now]>
                    (results_store s))
                 (set_disk d s))
        else handle_json
    | None => handle_json
    end).

(** [GET /result/<command_id>]. *)
Definition get_result (command_id : string) (s : state) : outcome * state :=
  handle s (
    match results_store s !! command_id with
    | None => Val (Error 404 "Result not found or expired", s)
    | Some (FileResult file_path filename _) =>
        content ← read_file file_path (disk s);
        Val (Attachment content filename, s)
    | Some (DataResult data _) => Val (Payload data, s)
    end).

(** [GET /devices].  [int(td.total_seconds())] truncates towards zero. *)
Definition device_info (now timestamp : Z) : Device.t :=
  {| Device.last_seen := timestamp;
     Device.seconds_ago := (now - timestamp) `quot` microseconds_per_second;
     Device.status := if online_at now timestamp then "online" else "offline" |}.

Definition list_devices (now : Z) (s : state) : outcome * state :=
  handle s (Val (Devices (device_info now <$> device_last_seen s), s)).

(** [GET /health]. *)
Definition health (now : Z) (s : state) : outcome * state :=
  handle s (Val (Healthy now, s)).

(** ** The cleanup thread *)

Definition is_expired (now : Z) (v : result) : bool :=
  bool_decide (now - result_timestamp v > RESULT_EXPIRY).

(** [[k for k, v in results_store.items() if now - v['timestamp'] > RESULT_EXPIRY]] *)
Definition expired_keys (now : Z) (store : gmap string result) : list string :=
  (filter (λ kv, is_expired now kv.2 = true) (map_to_list store)).*1.

(** The body of [for k in expired]: the lookup [results_store[k]] raises
    [KeyError] on an absent key; a failing [os.remove] is swallowed by the
    bare [except]. *)
Definition evict (k : string) (s : state) : py state :=
  match results_store s !! k with
  | None => Exc KeyError
  | Some v =>
      let s1 :=
        match v with
        | FileResult file_path _ _ =>
            match os_remove file_path (disk s) with
            | Val d => set_disk d s
            | Exc _ => s
            end
        | DataResult _ _ => s
        end in
      Val (set_results_store (delete k (results_store s1)) s1)
  end.

Fixpoint evict_all (expired : list string) (s : state) : py state :=
  match expired with
  | [] => Val s
  | k :: rest => s' ← evict k s; evict_all rest s'
  end.

(** One iteration of [while True] in [cleanup_old_data], after the sleep:
    the number it prints (if any) and the state it leaves. *)
Definition cleanup_pass (now : Z) (s : state) : py (option nat * state) :=
  let expired := expired_keys now (results_store s) in
  s' ← evict_all expired s;
  Val (match expired with [] => None | _ => Some (length expired) end, s').

(** [cleanup_old_data] run for the wake-up times [wakeups]. *)
Fixpoint cleanup_old_data (wakeups : list Z) (s : state) : py state :=
  match wakeups with
  | [] => Val s
  | now :: later => '(_, s') ← cleanup_pass now s; cleanup_old_data later s'
  end.

(** ** Traces of requests *)

Inductive request :=
| GET_root (now_at : string → Z)
| POST_command (now : Z) (uuid : string) (request_json : py json)
| GET_command (now : Z) (device_id : string)
| POST_result (now : Z) (command_id : string) (request : Request.t)
| GET_result (command_id : string)
| GET_devices (now : Z)
| GET_health (now : Z)
| Sweep (now : Z).

Inductive event :=
| Answered (o : outcome)
| Swept (printed : option nat)
| ThreadDied (e : exn).

Definition step (r : request) (s : state) : event * state :=
  match r with
  | GET_root now_at => prod_map Answered id (home now_at s)
  | POST_command now uuid data => prod_map Answered id (post_command now uuid data s)
  | GET_command now device_id => prod_map Answered id (get_commands now device_id s)
  | POST_result now command_id request =>
      prod_map Answered id (post_result now command_id request s)
  | GET_result command_id => prod_map Answered id (get_result command_id s)
  | GET_devices now => prod_map Answered id (list_devices now s)
  | GET_health now => prod_map Answered id (health now s)
  | Sweep now =>
      match cleanup_pass now s with
      | Val (printed, s') => (Swept printed, s')
      | Exc e => (ThreadDied e, s)
      end
  end.

(** Runs a trace; returns what each request produced, and the final state. *)
Fixpoint run (trace : list request) (s : state) : list (request * event) * state :=
  match trace with
  | [] => ([], s)
  | r :: rest =>
      let '(e, s1) := step r s in
      let '(log, s2) := run rest s1 in
      ((r, e) :: log, s2)
  end.

End OS.

(** ** Vocabulary of the properties *)

(** The queue of an endpoint, empty if the endpoint has none. *)
Definition pending (k : pykey) (s : state) : list Command.t :=
  default [] (command_queue s !! k).

(** The endpoint and the command that a [POST /command] with body [data]
    files, when it files one. *)
Definition accepted (now : Z) (uuid : string) (request_json : py json)
    : option (pykey * Command.t) :=
  match request_json with
  | Val (JObj fields) =>
      device_id ← fields !! "device_id";
      action ← fields !! "action";
      match as_hashable device_id with
      | Val h =>
          Some (key_of h,
                Command.mk uuid action (default (JObj ∅) (fields !! "params")) now)
      | Exc _ => None
      end
  | _ => None
  end.

(** The commands a trace enqueues for endpoint [k], in request order. *)
Fixpoint enqueued (k : pykey) (trace : list request) : list Command.t :=
  match trace with
  | [] => []
  | POST_command now uuid data :: rest =>
      match accepted now uuid data with
      | Some (k', c) => if decide (k' = k) then c :: enqueued k rest else enqueued k rest
      | None => enqueued k rest
      end
  | _ :: rest => enqueued k rest
  end.

(** The command lists handed out, in order, by the polls of [device_id]. *)
Fixpoint drained (device_id : string) (log : list (request * event))
    : list (list Command.t) :=
  match log with
  | [] => []
  | (GET_command _ d, Answered (Reply (Commands cs))) :: rest =>
      if decide (d = device_id) then cs :: drained device_id rest
      else drained device_id rest
  | _ :: rest => drained device_id rest
  end.

(** The identifiers [uuid.uuid4()] produced along a trace. *)
Fixpoint uuids (trace : list request) : list string :=
  match trace with
  | [] => []
  | POST_command _ uuid _ :: rest => uuid :: uuids rest
  | _ :: rest => uuids rest
  end.

(** The command ids that the enqueues of a log returned to their callers. *)
Fixpoint returned_ids (log : list (request * event)) : list string :=
  match log with
  | [] => []
  | (POST_command _ _ _, Answered (Reply (Queued command_id _))) :: rest =>
      command_id :: returned_ids rest
  | _ :: rest => returned_ids rest
  end.

(** The readings of [datetime.now()] that can reach the stores, in order. *)
Fixpoint clock_readings (trace : list request) : list Z :=
  match trace with
  | [] => []
  | r :: rest =>
      match r with
      | POST_command now _ _ | GET_command now _ | POST_result now _ _
      | GET_devices now | GET_health now | Sweep now => now :: clock_readings rest
      | GET_root _ | GET_result _ => clock_readings rest
      end
  end.

(** The file part that [post_result] stores, if the request has one: the
    part named [file], when its filename is not empty. *)
Definition named_file (request : Request.t) : option FileStorage.t :=
  match Request.files request !! "file" with
  | Some file =>
      if String.eqb (FileStorage.filename file) "" then None else Some file
  | None => None
  end.

Definition blob_path (command_id : string) (file : FileStorage.t) : string :=
  os_path_join upload_dir (command_id +:+ "_" +:+ FileStorage.filename file).



(** A field of a command request as the specification words it: missing,
    or empty. *)
Definition missing_or_empty (key : string) (data : json) : Prop :=
  match data with
  | JObj fields => fields !! key = None ∨ fields !! key = Some (JStr "")
  | _ => True
  end.

(** The clock reading of the most recent poll of [device_id] in a trace. *)
Fixpoint last_poll (device_id : string) (trace : list request) : option Z :=
  match trace with
  | [] => None
  | r :: rest =>
      match last_poll device_id rest with
      | Some t => Some t
      | None =>
          match r with
          | GET_command now d => if decide (d = device_id) then Some now else None
          | _ => None
          end
      end
  end.

(** A trace without a poll of [device_id]. *)
Definition no_poll_of (device_id : string) (trace : list request) : Prop :=
  Forall (λ r, match r with GET_command _ d => d ≠ device_id | _ => True end) trace.

(** The shape of the entries that [post_result] writes under [command_id]. *)
Definition stored_by_post_result (command_id : string) (v : result) : Prop :=
  match v with
  | FileResult file_path filename _ =>
      filename ≠ ""
      ∧ file_path = os_path_join upload_dir (command_id +:+ "_" +:+ filename)
  | DataResult data _ => truthy data = true
  end.

(** An entry that is expired at none of the given wake-up times. *)
Definition survives (wakeups : list Z) (v : result) : Prop :=
  Forall (λ now, ¬ now - result_timestamp v > RESULT_EXPIRY) wakeups.

#[global] Instance survives_dec wakeups v : Decision (survives wakeups v).
Proof. unfold survives. apply _. Defined.

(** The entries of the store that a pass at [now] evicts and that hold a
    file at [path]. *)
Definition expired_file_at (now : Z) (path : string) (s : state) : Prop :=
  ∃ k filename t,
    results_store s !! k = Some (FileResult path filename t)
    ∧ now - t > RESULT_EXPIRY.

(** ** Basic facts *)

Lemma truthy_obj_false fields : truthy (JObj fields) = false ↔ fields = ∅.
Proof.
  simpl. rewrite negb_false_iff, Nat.eqb_eq. apply map_size_empty_iff.
Qed.

Lemma online_at_spec now t : online_at now t = true ↔ now - t < DEVICE_TIMEOUT.
Proof. unfold online_at. apply bool_decide_eq_true. Qed.

Lemma is_expired_spec now v :
  is_expired now v = true ↔ now - result_timestamp v > RESULT_EXPIRY.
Proof. unfold is_expired. apply bool_decide_eq_true. Qed.

Lemma pending_set_other k k' q s :
  k ≠ k' → pending k' (set_command_queue (<[k := q]> (command_queue s)) s) = pending k' s.
Proof. intros Hne. unfold pending. simpl. by rewrite lookup_insert_ne. Qed.

Lemma pending_set_same k q s :
  pending k (set_command_queue (<[k := q]> (command_queue s)) s) = q.
Proof. unfold pending. simpl. by rewrite lookup_insert_eq. Qed.

(** What [post_command] does, in terms of [accepted]. *)
Lemma post_command_accepted now uuid data s k c :
  accepted now uuid data = Some (k, c) →
  ∃ message,
    post_command now uuid data s =
      (Reply (Queued uuid message),
       set_command_queue (<[k := pending k s ++ [c]]> (command_queue s)) s).
Proof.
  destruct data as [[| | | | |fields]|]; try discriminate. simpl.
  destruct (fields !! "device_id") as [device_id|] eqn:Hd; [|discriminate].
  destruct (fields !! "action") as [action|] eqn:Ha; [|discriminate]. simpl.
  destruct (as_hashable device_id) as [h|] eqn:Hh; [|discriminate].
  intros [= <- <-]. unfold post_command, py_in, py_getitem, py_get.
  cbn [mbind py_bind].
  assert (truthy (JObj fields) = true) as ->.
  { apply not_false_iff_true. rewrite truthy_obj_false. intros ->.
    by rewrite lookup_empty in Hd. }
  rewrite Hd, Ha. simpl. rewrite Hh. simpl. eauto.
Qed.

Lemma post_command_rejected now uuid data s :
  accepted now uuid data = None → (post_command now uuid data s).2 = s.
Proof.
  intros Hacc. unfold post_command.
  destruct data as [data|e]; [|done]. cbn [mbind py_bind].
  destruct (truthy data); [|done]. simpl.
  destruct data as [| | | | |fields]; simpl; try done.
  - by destruct (bool_decide _); [destruct (bool_decide _)|].
  - by destruct (existsb _ _); [destruct (existsb _ _)|].
  - simpl in Hacc. unfold py_getitem, py_get.
    destruct (fields !! "device_id") as [device_id|] eqn:Hd; simpl; [|done].
    destruct (fields !! "action") as [action|] eqn:Ha; simpl; [|done].
    simpl in Hacc. by destruct (as_hashable device_id).
Qed.

(** ** The cleanup pass *)

Section Cleanup.
Context (removable : string → bool).

Lemma elem_of_expired_keys now (store : gmap string result) k :
  k ∈ expired_keys now store ↔
  ∃ v, store !! k = Some v ∧ is_expired now v = true.
Proof.
  unfold expired_keys. rewrite list_elem_of_fmap. split.
  - intros [[k' v] [-> [Hexp Hin]%list_elem_of_filter]].
    apply elem_of_map_to_list in Hin. eauto.
  - intros (v & Hk & Hexp). exists (k, v). split; [done|].
    apply list_elem_of_filter. split; [done|]. by apply elem_of_map_to_list.
Qed.

Lemma NoDup_expired_keys now (store : gmap string result) :
  NoDup (expired_keys now store).
Proof.
  unfold expired_keys.
  eapply sublist_NoDup; [apply (NoDup_fst_map_to_list store)|].
  apply fmap_sublist, sublist_filter.
Qed.

(** Evicting a stored entry never raises, whatever [os.remove] does, and
    removes exactly that entry. *)
Lemma evict_present k v s :
  results_store s !! k = Some v →
  ∃ s', evict removable k s = Val s'
        ∧ results_store s' = delete k (results_store s)
        ∧ command_queue s' = command_queue s
        ∧ device_last_seen s' = device_last_seen s.
Proof.
  intros Hk. unfold evict. rewrite Hk. eexists. split; [done|].
  destruct v as [path name t|data t]; [destruct (os_remove _ _ _)|]; done.
Qed.

Lemma evict_all_spec expired : ∀ s,
  NoDup expired →
  (∀ k, k ∈ expired → is_Some (results_store s !! k)) →
  ∃ s', evict_all removable expired s = Val s'
        ∧ (∀ k, results_store s' !! k =
                  if decide (k ∈ expired) then None else results_store s !! k)
        ∧ command_queue s' = command_queue s
        ∧ device_last_seen s' = device_last_seen s.
Proof.
  induction expired as [|k rest IH]; intros s Hnd Hin.
  - exists s. by repeat split.
  - apply NoDup_cons in Hnd as [Hk Hnd].
    destruct (Hin k) as [v Hv]; [set_solver|].
    destruct (evict_present k v s Hv) as (s1 & Hev & Hr1 & Hq1 & Hl1).
    destruct (IH s1 Hnd) as (s' & Hall & Hr & Hq & Hl).
    { intros k' Hk'. rewrite Hr1, lookup_delete_ne by set_solver.
      apply Hin. set_solver. }
    exists s'. simpl. rewrite Hev. simpl. split; [done|].
    split; [|split; congruence].
    intros k'. rewrite Hr, Hr1. destruct (decide (k' = k)) as [->|Hne].
    + rewrite decide_False by done. rewrite decide_True by set_solver.
      apply lookup_delete_eq.
    + rewrite lookup_delete_ne by done.
      destruct (decide (k' ∈ rest)) as [Hin'|Hin'].
      * rewrite decide_True; [done|]. by apply list_elem_of_further.
      * rewrite decide_False; [done|]. by intros [?|?]%elem_of_cons.
Qed.

(** One pass never raises; it keeps exactly the entries that are not expired
    and touches neither the queues nor the liveness records. *)
Lemma cleanup_pass_spec now s :
  ∃ printed s', cleanup_pass removable now s = Val (printed, s')
    ∧ (∀ k, results_store s' !! k =
              match results_store s !! k with
              | Some v => if is_expired now v then None else Some v
              | None => None
              end)
    ∧ command_queue s' = command_queue s
    ∧ device_last_seen s' = device_last_seen s.
Proof.
  destruct (evict_all_spec (expired_keys now (results_store s)) s)
    as (s' & Hall & Hr & Hq & Hl).
  { apply NoDup_expired_keys. }
  { intros k (v & Hv & _)%elem_of_expired_keys. eauto. }
  unfold cleanup_pass. rewrite Hall. simpl. do 2 eexists. split; [done|].
  split; [|done]. intros k. rewrite Hr.
  destruct (results_store s !! k) as [v|] eqn:Hk.
  - destruct (is_expired now v) eqn:Hexp.
    + rewrite decide_True; [done|]. apply elem_of_expired_keys. eauto.
    + rewrite decide_False; [done|].
      intros (v' & Hv' & Hexp')%elem_of_expired_keys. congruence.
  - by destruct (decide _).
Qed.

End Cleanup.

(** ** What each handler leaves alone *)

Section Frames.
Context (writable removable : string → bool).

(** [post_result] by cases: the file part with a non-empty filename comes
    first, and [request.json] is evaluated only when there is none. *)
Lemma post_result_cases now command_id request s :
  post_result writable now command_id request s =
    match named_file request with
    | Some file =>
        if writable (blob_path command_id file) then
          (Reply (Stored "File uploaded"),
           set_results_store
             (<[command_id := FileResult (blob_path command_id file)
                                (FileStorage.filename file) now]> (results_store s))
             (set_disk (<[blob_path command_id file := FileStorage.content file]>
                          (disk s)) s))
        else (Raise OSError, s)
    | None =>
        match Request.json request with
        | Val data =>
            if truthy data then
              (Reply (Stored "Result stored"),
               set_results_store
                 (<[command_id := DataResult data now]> (results_store s)) s)
            else (Reply (Error 400 "No data or file provided"), s)
        | Exc e => (Raise e, s)
        end
    end.
Proof.
  unfold post_result, named_file, blob_path, file_save.
  destruct (Request.files request !! "file") as [file|]; simpl.
  - destruct (String.eqb (FileStorage.filename file) ""); simpl.
    + destruct (Request.json request) as [data|e]; simpl; [|done].
      by destruct (truthy data).
    + by destruct (writable _).
  - destruct (Request.json request) as [data|e]; simpl; [|done].
    by destruct (truthy data).
Qed.

Lemma post_result_frame now command_id request s :
  let s' := (post_result writable now command_id request s).2 in
  command_queue s' = command_queue s
  ∧ device_last_seen s' = device_last_seen s
  ∧ ∀ c, c ≠ command_id → results_store s' !! c = results_store s !! c.
Proof.
  rewrite post_result_cases.
  destruct (named_file request) as [file|].
  - destruct (writable _); simpl; repeat split; try done.
    intros c Hc. by rewrite lookup_insert_ne.
  - destruct (Request.json request) as [data|e]; [|done].
    destruct (truthy data); simpl; repeat split; try done.
    intros c Hc. by rewrite lookup_insert_ne.
Qed.

(** On disk an upload writes at most the file it saves. *)
Lemma post_result_disk now command_id request s path :
  disk (post_result writable now command_id request s).2 !! path = disk s !! path
  ∨ ∃ file, named_file request = Some file
            ∧ path = blob_path command_id file
            ∧ disk (post_result writable now command_id request s).2 !! path =
                Some (FileStorage.content file).
Proof.
  rewrite post_result_cases.
  destruct (named_file request) as [file|].
  - destruct (writable (blob_path command_id file)); simpl; [|by left].
    destruct (decide (path = blob_path command_id file)) as [->|Hne].
    + right. exists file. by rewrite lookup_insert_eq.
    + left. by rewrite lookup_insert_ne.
  - left. destruct (Request.json request) as [data|e]; [|done].
    by destruct (truthy data).
Qed.

Lemma get_result_state command_id s : (get_result command_id s).2 = s.
Proof.
  unfold get_result, read_file.
  destruct (results_store s !! command_id) as [[path name t|data t]|]; try done.
  by destruct (disk s !! path).
Qed.

Lemma get_commands_reply now device_id s :
  (get_commands now device_id s).1 = Reply (Commands (pending (KStr device_id) s)).
Proof.
  unfold get_commands, pending. simpl.
  by destruct (command_queue s !! KStr device_id) as [[|c q]|].
Qed.

Lemma get_commands_pending now device_id s k :
  pending k (get_commands now device_id s).2 =
    if decide (k = KStr device_id) then [] else pending k s.
Proof.
  unfold get_commands, pending. simpl.
  destruct (command_queue s !! KStr device_id) as [[|c q]|] eqn:Hq; simpl.
  - case_decide; by simplify_eq; rewrite ?Hq.
  - rewrite lookup_insert. repeat case_decide; by simplify_eq.
  - case_decide; by simplify_eq; rewrite ?Hq.
Qed.

Lemma get_commands_last_seen now device_id s :
  device_last_seen (get_commands now device_id s).2 =
    <[device_id := now]> (device_last_seen s)
  ∧ results_store (get_commands now device_id s).2 = results_store s
  ∧ disk (get_commands now device_id s).2 = disk s.
Proof.
  unfold get_commands. simpl.
  by destruct (command_queue s !! KStr device_id) as [[|c q]|].
Qed.

Lemma post_command_pending now uuid data s k :
  pending k (post_command now uuid data s).2 = pending k s ++ enqueued k [POST_command now uuid data].
Proof.
  simpl. destruct (accepted now uuid data) as [[k' c]|] eqn:Hacc.
  - destruct (post_command_accepted now uuid data s k' c Hacc) as [msg ->].
    simpl. case_decide as Hk.
    + subst. by rewrite pending_set_same.
    + rewrite pending_set_other by done. by rewrite app_nil_r.
  - rewrite post_command_rejected by done. by rewrite app_nil_r.
Qed.

Lemma post_command_frame now uuid data s :
  let s' := (post_command now uuid data s).2 in
  results_store s' = results_store s
  ∧ device_last_seen s' = device_last_seen s
  ∧ disk s' = disk s.
Proof.
  destruct (accepted now uuid data) as [[k' c]|] eqn:Hacc.
  - by destruct (post_command_accepted now uuid data s k' c Hacc) as [msg ->].
  - simpl. by rewrite post_command_rejected.
Qed.

(** Only a poll writes a liveness record, and it writes the clock reading. *)
Lemma step_last_seen r s :
  device_last_seen (step writable removable r s).2 =
    match r with
    | GET_command now device_id => <[device_id := now]> (device_last_seen s)
    | _ => device_last_seen s
    end.
Proof.
  destruct r as [now_at|now uuid data|now d|now c request|c|now|now|now]; simpl;
    try done.
  - apply post_command_frame.
  - apply get_commands_last_seen.
  - apply post_result_frame.
  - by rewrite get_result_state.
  - destruct (cleanup_pass_spec removable now s) as (p & s' & -> & _ & _ & Hl).
    done.
Qed.

(** The queue of an endpoint changes only by an accepted enqueue for it
    (appended at the back) and by its own poll (emptied). *)
Lemma step_pending r s device_id :
  let '(ev, s') := step writable removable r s in
  concat (drained device_id [(r, ev)]) ++ pending (KStr device_id) s' =
    pending (KStr device_id) s ++ enqueued (KStr device_id) [r].
Proof.
  destruct (step writable removable r s) as [ev s'] eqn:Hstep.
  assert (ev = (step writable removable r s).1) as Hev by by rewrite Hstep.
  assert (s' = (step writable removable r s).2) as Hs' by by rewrite Hstep.
  clear Hstep.
  destruct r as [now_at|now uuid data|now d|now c request|c|now|now|now];
    simpl in Hev, Hs'.
  - subst. simpl. by rewrite app_nil_r.
  - subst s'. rewrite post_command_pending.
    subst ev. simpl. by destruct (post_command now uuid data s).1 as [[]|].
  - subst s'. rewrite get_commands_pending. rewrite Hev, get_commands_reply.
    simpl. rewrite app_nil_r. case_decide as Hd.
    + rewrite decide_True by congruence. simpl. rewrite !app_nil_r. congruence.
    + rewrite decide_False by congruence. done.
  - subst s'. unfold pending.
    destruct (post_result_frame now c request s) as (-> & _ & _).
    subst ev. simpl. by rewrite app_nil_r.
  - subst s'. rewrite get_result_state. subst ev. simpl. by rewrite app_nil_r.
  - subst. simpl. by rewrite app_nil_r.
  - subst. simpl. by rewrite app_nil_r.
  - destruct (cleanup_pass_spec removable now s) as (p & s1 & Hc & _ & Hq & _).
    rewrite Hc in Hev, Hs'. simpl in Hev, Hs'. subst ev s'. unfold pending.
    rewrite Hq. simpl. by rewrite app_nil_r.
Qed.

End Frames.

(** ** Lists of lists *)

Section Concat.
Context {A : Type}.
Implicit Types (ls : list (list A)) (o : list A).

Lemma elem_of_concat ls (x : A) :
  x ∈ concat ls ↔ ∃ i o, ls !! i = Some o ∧ x ∈ o.
Proof.
  induction ls as [|o' ls IH]; simpl.
  - split; [by intros ?%elem_of_nil|by intros (i & o & ? & _)].
  - rewrite elem_of_app, IH. split.
    + intros [Hx|(i & o & Hi & Hx)]; [by exists 0%nat, o'|by exists (S i), o].
    + intros ([|i] & o & Hi & Hx); simplify_eq/=; eauto.
Qed.

(** In a concatenation without repetition, an element sits in one block. *)
Lemma concat_NoDup_block ls i j o o' (x : A) :
  NoDup (concat ls) →
  ls !! i = Some o → ls !! j = Some o' → x ∈ o → x ∈ o' → i = j.
Proof.
  revert i j. induction ls as [|b ls IH]; intros i j Hnd Hi Hj Hx Hx'; [done|].
  simpl in Hnd. apply NoDup_app in Hnd as (_ & Hdisj & Hnd).
  destruct i as [|i], j as [|j]; simplify_eq/=; [done| | |].
  - exfalso. apply (Hdisj x Hx). apply elem_of_concat. eauto.
  - exfalso. apply (Hdisj x Hx'). apply elem_of_concat. eauto.
  - f_equal. eauto.
Qed.

Lemma sublist_concat ls o : o ∈ ls → o `sublist_of` concat ls.
Proof.
  induction 1 as [o ls|o o' ls _ IH]; simpl.
  - apply sublist_inserts_r. done.
  - by apply sublist_inserts_l.
Qed.

End Concat.

(** ** Traces *)

Section Traces.
Context (writable removable : string → bool).
#[local] Abbreviation step := (step writable removable).
#[local] Abbreviation run := (run writable removable).

Lemma run_cons r trace s :
  run (r :: trace) s =
    ((r, (step r s).1) :: (run trace (step r s).2).1, (run trace (step r s).2).2).
Proof.
  simpl. destruct (step r s) as [ev s1]. simpl. by destruct (run trace s1).
Qed.

Lemma run_app trace1 trace2 s :
  run (trace1 ++ trace2) s =
    ((run trace1 s).1 ++ (run trace2 (run trace1 s).2).1,
     (run trace2 (run trace1 s).2).2).
Proof.
  revert s. induction trace1 as [|r trace1 IH]; intros s.
  - simpl. by destruct (run trace2 s).
  - rewrite <-app_comm_cons, !run_cons, IH. done.
Qed.

Lemma enqueued_cons k r trace :
  enqueued k (r :: trace) = enqueued k [r] ++ enqueued k trace.
Proof.
  destruct r; simpl; try done.
  destruct (accepted _ _ _) as [[k' c]|]; [|done]. by case_decide.
Qed.

Lemma drained_cons device_id r ev log :
  drained device_id ((r, ev) :: log) =
    drained device_id [(r, ev)] ++ drained device_id log.
Proof.
  destruct r; simpl; try done.
  destruct ev as [[[]|]| |]; simpl; try done. by case_decide.
Qed.

(** Conservation of commands: what the polls of an endpoint handed out,
    followed by what is still queued, is what was queued before followed by
    what was enqueued, in that order. *)
Lemma run_conservation device_id trace : ∀ s,
  concat (drained device_id (run trace s).1) ++ pending (KStr device_id) (run trace s).2 =
    pending (KStr device_id) s ++ enqueued (KStr device_id) trace.
Proof.
  induction trace as [|r trace IH]; intros s.
  - simpl. by rewrite app_nil_r.
  - rewrite run_cons. cbn [fst snd].
    rewrite drained_cons, enqueued_cons, concat_app, <-app_assoc, IH.
    pose proof (step_pending writable removable r s device_id) as Hstep.
    destruct (step r s) as [ev s1]. cbn [fst snd].
    by rewrite !app_assoc, Hstep.
Qed.

Lemma accepted_id now uuid data k c :
  accepted now uuid data = Some (k, c) → Command.id c = uuid.
Proof.
  destruct data as [[| | | | |fields]|]; try discriminate. simpl.
  destruct (fields !! "device_id") as [d|]; [|discriminate].
  destruct (fields !! "action") as [a|]; [|discriminate]. simpl.
  destruct (as_hashable d); [|discriminate]. by intros [= <- <-].
Qed.

Lemma enqueued_ids k trace :
  Command.id <$> enqueued k trace `sublist_of` uuids trace.
Proof.
  induction trace as [|r trace IH]; [done|].
  destruct r; simpl; try done.
  destruct (accepted _ _ _) as [[k' c]|] eqn:Hacc.
  - case_decide.
    + simpl. rewrite (accepted_id _ _ _ _ _ Hacc). by constructor.
    + by constructor.
  - by constructor.
Qed.

Lemma enqueued_NoDup k trace : NoDup (uuids trace) → NoDup (enqueued k trace).
Proof.
  intros Hnd. apply (NoDup_fmap_1 Command.id).
  eapply sublist_NoDup; [done|]. apply enqueued_ids.
Qed.

(** Every liveness record in the final state was there at the start or is a
    clock reading of the trace. *)
Lemma run_last_seen_origin trace : ∀ s d t,
  device_last_seen (run trace s).2 !! d = Some t →
  device_last_seen s !! d = Some t ∨ t ∈ clock_readings trace.
Proof.
  induction trace as [|r trace IH]; intros s d t; [by left|].
  rewrite run_cons. cbn [snd]. intros [Hs1|Hin]%IH.
  - rewrite step_last_seen in Hs1.
    destruct r; simpl; auto.
    rewrite lookup_insert in Hs1. case_decide; simplify_eq; auto.
    right. by left.
  - right. destruct r; simpl; auto; by right.
Qed.

Lemma run_last_seen_mono trace : ∀ s,
  StronglySorted Z.le (clock_readings trace) →
  (∀ d t now, device_last_seen s !! d = Some t → now ∈ clock_readings trace → t ≤ now) →
  ∀ d t, device_last_seen s !! d = Some t →
  ∃ t', device_last_seen (run trace s).2 !! d = Some t' ∧ t ≤ t'.
Proof.
  induction trace as [|r trace IH]; intros s Hsorted Hbound d t Hd.
  - exists t. by split.
  - rewrite run_cons. cbn [snd].
    pose proof (step_last_seen writable removable r s) as Hstep.
    assert (StronglySorted Z.le (clock_readings trace)) as Hsorted'.
    { destruct r; simpl in Hsorted; try done; by inversion Hsorted. }
    assert (∀ now, now ∈ clock_readings trace → now ∈ clock_readings (r :: trace))
      as Hlater.
    { intros now Hin. destruct r; simpl; try done; by right. }
    destruct r as [now_at|now uuid data|now d'|now c request|c|now|now|now];
      try (apply IH; [done| |by rewrite Hstep];
           intros ???; rewrite Hstep; eauto).
    simpl in Hsorted. inversion Hsorted as [|? ? _ Hall]; subst.
    rewrite Forall_forall in Hall.
    assert (∀ d0 t0 now0,
      device_last_seen (step (GET_command now d') s).2 !! d0 = Some t0 →
      now0 ∈ clock_readings trace → t0 ≤ now0) as Hbound'.
    { intros d0 t0 now0. rewrite Hstep, lookup_insert.
      case_decide; intros; simplify_eq; eauto. }
    destruct (decide (d = d')) as [->|Hne].
    + destruct (IH _ Hsorted' Hbound' d' now) as (t' & Ht' & Hle).
      { by rewrite Hstep, lookup_insert_eq. }
      exists t'. split; [done|].
      assert (t ≤ now) by (eapply Hbound; [done|by left]). lia.
    + apply (IH _ Hsorted' Hbound'). by rewrite Hstep, lookup_insert_ne.
Qed.

End Traces.

(** ** Auxiliary facts for the properties *)

Lemma clock_readings_app trace1 trace2 :
  clock_readings (trace1 ++ trace2) = clock_readings trace1 ++ clock_readings trace2.
Proof.
  induction trace1 as [|r trace1 IH]; [done|].
  destruct r; simpl; by rewrite ?IH.
Qed.

Lemma size_filter_map_to_list `{Countable K} {A} (P : K * A → Prop)
    `{!∀ x, Decision (P x)} (m : gmap K A) :
  length (filter P (map_to_list m)) = size (filter P m).
Proof.
  rewrite map_filter_alt, <-length_map_to_list. symmetry.
  apply Permutation_length, map_to_list_to_map.
  eapply sublist_NoDup; [apply (NoDup_fst_map_to_list m)|].
  apply fmap_sublist, sublist_filter.
Qed.

Lemma get_commands_queue now device_id s k :
  k ≠ KStr device_id →
  command_queue (get_commands now device_id s).2 !! k = command_queue s !! k.
Proof.
  intros Hk. unfold get_commands. simpl.
  destruct (command_queue s !! KStr device_id) as [[|c q]|]; simpl; try done.
  by rewrite lookup_insert_ne.
Qed.

(** ** The properties *)

(** C8.  Polling never fails: the answer is always a list of commands, the
    empty list when the endpoint has no queue or an empty one, and every
    poll, also one that returns nothing, sets the endpoint's last-seen time
    to the current time. *)
Theorem get_commands_never_fails (now : Z) (device_id : string) (s : state) :
  (get_commands now device_id s).1 =
    Reply (Commands (default [] (command_queue s !! KStr device_id)))
  ∧ (command_queue s !! KStr device_id = None
     ∨ command_queue s !! KStr device_id = Some [] →
     (get_commands now device_id s).1 = Reply (Commands []))
  ∧ device_last_seen (get_commands now device_id s).2 !! device_id = Some now.
Proof.
  split; [apply get_commands_reply|]. split.
  - intros Hq. rewrite get_commands_reply. unfold pending.
    by destruct Hq as [-> | ->].
  - destruct (get_commands_last_seen now device_id s) as (-> & _).
    apply lookup_insert_eq.
Qed.

(** C7.  Fetching a result returns the stored entry (the payload, or the
    bytes and name of the blob) and changes nothing, so a second fetch gives
    the same answer; it answers NotFound exactly when the store has no entry
    for the id, which is the case for an id never submitted and for an id
    whose entry a cleanup pass has evicted. *)
Theorem get_result_reads_without_deleting (command_id : string) (s : state) :
  (get_result command_id s).2 = s
  ∧ get_result command_id (get_result command_id s).2 = get_result command_id s
  ∧ ((get_result command_id s).1 = Reply (Error 404 "Result not found or expired")
     ↔ results_store s !! command_id = None)
  ∧ (∀ data t, results_store s !! command_id = Some (DataResult data t) →
       (get_result command_id s).1 = Reply (Payload data))
  ∧ (∀ path name t content,
       results_store s !! command_id = Some (FileResult path name t) →
       disk s !! path = Some content →
       (get_result command_id s).1 = Reply (Attachment content name))
  ∧ (get_result command_id initial).1 = Reply (Error 404 "Result not found or expired")
  ∧ (∀ removable now v printed s',
       results_store s !! command_id = Some v →
       now - result_timestamp v > RESULT_EXPIRY →
       cleanup_pass removable now s = Val (printed, s') →
       (get_result command_id s').1 = Reply (Error 404 "Result not found or expired")).
Proof.
  split; [apply get_result_state|].
  split; [by rewrite get_result_state|].
  split.
  { unfold get_result, read_file.
    destruct (results_store s !! command_id) as [[path name t|data t]|]; simpl;
      [destruct (disk s !! path)| |]; split; done. }
  split.
  { intros data t Hr. unfold get_result. by rewrite Hr. }
  split.
  { intros path name t content Hr Hd. unfold get_result, read_file.
    by rewrite Hr, Hd. }
  split; [done|].
  intros removable now v printed s' Hr Hexp Hpass.
  destruct (cleanup_pass_spec removable now s) as (p & s1 & Hp & Hs1 & _).
  rewrite Hpass in Hp. injection Hp as -> ->.
  unfold get_result. rewrite Hs1, Hr.
  apply is_expired_spec in Hexp. by rewrite Hexp.
Qed.

(** C6.  An endpoint is online exactly when [now - last_seen] is strictly
    below the ten-minute timeout, in the snapshot of [GET /devices] and in
    the count of [GET /]: an endpoint that polled eleven minutes ago is
    offline and not counted, one that polled nine minutes ago is online and
    counted. *)
Theorem online_iff_strictly_within_timeout (now : Z) (s : state) :
  (∃ devices, (list_devices now s).1 = Reply (Devices devices)
     ∧ ∀ d, match device_last_seen s !! d with
            | Some t =>
                ∃ info, devices !! d = Some info
                  ∧ Device.last_seen info = t
                  ∧ (Device.status info = "online" ↔ now - t < DEVICE_TIMEOUT)
                  ∧ (Device.status info = "offline" ↔ ¬ now - t < DEVICE_TIMEOUT)
            | None => devices !! d = None
            end)
  ∧ (∀ now_at, (home now_at s).1 =
       Reply (Status (size (filter (λ dt, now_at dt.1 - dt.2 < DEVICE_TIMEOUT)
                                   (device_last_seen s)))))
  ∧ (∀ d, let polled at_time := (get_commands at_time d initial).2 in
       (∃ devices info,
          (list_devices now (polled (now - timedelta 0 11))).1 = Reply (Devices devices)
          ∧ devices !! d = Some info ∧ Device.status info = "offline")
       ∧ (home (λ _, now) (polled (now - timedelta 0 11))).1 = Reply (Status 0)
       ∧ (∃ devices info,
          (list_devices now (polled (now - timedelta 0 9))).1 = Reply (Devices devices)
          ∧ devices !! d = Some info ∧ Device.status info = "online")
       ∧ (home (λ _, now) (polled (now - timedelta 0 9))).1 = Reply (Status 1)).
Proof.
  split.
  { eexists. split; [done|]. intros d. rewrite lookup_fmap.
    destruct (device_last_seen s !! d) as [t|]; simpl; [|done].
    eexists. split; [done|]. split; [done|]. simpl.
    rewrite <-online_at_spec. destruct (online_at now t); split; done. }
  split.
  { intros now_at. unfold home. simpl. do 2 f_equal.
    rewrite <-size_filter_map_to_list. f_equal.
    apply list_filter_iff. intros [d t]. apply online_at_spec. }
  intros d polled.
  assert (∀ at_time, device_last_seen (polled at_time) = {[d := at_time]}) as Hpolled.
  { intros at_time. unfold polled.
    destruct (get_commands_last_seen at_time d initial) as (-> & _). done. }
  assert (online_at now (now - timedelta 0 11) = false) as H11.
  { apply bool_decide_eq_false. unfold DEVICE_TIMEOUT, timedelta,
      microseconds_per_second. lia. }
  assert (online_at now (now - timedelta 0 9) = true) as H9.
  { apply bool_decide_eq_true. unfold DEVICE_TIMEOUT, timedelta,
      microseconds_per_second. lia. }
  repeat split.
  - do 2 eexists. split; [done|]. rewrite Hpolled, lookup_fmap, lookup_singleton_eq.
    split; [done|]. simpl. by rewrite H11.
  - unfold home. simpl. rewrite Hpolled, map_to_list_singleton.
    rewrite filter_cons_False; [done|]. simpl. by rewrite H11.
  - do 2 eexists. split; [done|]. rewrite Hpolled, lookup_fmap, lookup_singleton_eq.
    split; [done|]. simpl. by rewrite H9.
  - unfold home. simpl. rewrite Hpolled, map_to_list_singleton.
    rewrite filter_cons_True; [done|]. done.
Qed.

(** C5.  A cleanup pass never fails and keeps exactly the entries that are
    not expired: it removes an entry if and only if [now - timestamp]
    strictly exceeds the one-hour expiry.  An entry created 61 minutes
    before the pass is removed, one created 59 minutes before it is kept. *)
Theorem cleanup_pass_evicts_exactly_expired
    (removable : string → bool) (now : Z) (s : state) :
  ∃ printed s', cleanup_pass removable now s = Val (printed, s')
    ∧ results_store s' =
        filter (λ kv, ¬ now - result_timestamp kv.2 > RESULT_EXPIRY) (results_store s)
    ∧ (∀ k v, results_store s !! k = Some v →
         result_timestamp v = now - timedelta 0 61 → results_store s' !! k = None)
    ∧ (∀ k v, results_store s !! k = Some v →
         result_timestamp v = now - timedelta 0 59 → results_store s' !! k = Some v).
Proof.
  destruct (cleanup_pass_spec removable now s) as (printed & s' & Hp & Hr & _).
  exists printed, s'. split; [done|]. split; [|split].
  - apply map_eq. intros k. rewrite Hr, map_lookup_filter.
    destruct (results_store s !! k) as [v|]; simpl; [|done].
    destruct (is_expired now v) eqn:Hexp.
    + apply is_expired_spec in Hexp. by rewrite option_guard_False by tauto.
    + rewrite option_guard_True; [done|].
      intros Hgt%is_expired_spec. congruence.
  - intros k v Hk Ht. rewrite Hr, Hk.
    assert (is_expired now v = true) as ->; [|done].
    apply is_expired_spec. rewrite Ht.
    unfold RESULT_EXPIRY, timedelta, microseconds_per_second. lia.
  - intros k v Hk Ht. rewrite Hr, Hk.
    assert (is_expired now v = false) as ->; [|done].
    apply not_true_iff_false. rewrite is_expired_spec, Ht.
    unfold RESULT_EXPIRY, timedelta, microseconds_per_second. lia.
Qed.

(** X14.  What each handler leaves alone.  An enqueue changes only the
    queue of the endpoint it files the command under; a poll changes only
    the queue and the liveness record of the polled endpoint; a result
    upload changes, in the three stores, only the result entry of its
    command id, and on disk only the file it saves; a fetch changes
    nothing. *)
Theorem handlers_change_only_their_own_entry
    (writable : string → bool) (now : Z) (s : state) :
  (∀ uuid data,
     let s' := (post_command now uuid data s).2 in
     results_store s' = results_store s
     ∧ device_last_seen s' = device_last_seen s
     ∧ disk s' = disk s
     ∧ match accepted now uuid data with
       | Some (e, _) => ∀ k, k ≠ e → command_queue s' !! k = command_queue s !! k
       | None => s' = s
       end)
  ∧ (∀ device_id,
     let s' := (get_commands now device_id s).2 in
     results_store s' = results_store s
     ∧ disk s' = disk s
     ∧ (∀ k, k ≠ KStr device_id → command_queue s' !! k = command_queue s !! k)
     ∧ (∀ d, d ≠ device_id → device_last_seen s' !! d = device_last_seen s !! d))
  ∧ (∀ command_id request,
     let s' := (post_result writable now command_id request s).2 in
     command_queue s' = command_queue s
     ∧ device_last_seen s' = device_last_seen s
     ∧ (∀ c, c ≠ command_id → results_store s' !! c = results_store s !! c)
     ∧ (∀ path,
          (∀ file, named_file request = Some file →
                   path ≠ blob_path command_id file) →
          disk s' !! path = disk s !! path))
  ∧ (∀ command_id, (get_result command_id s).2 = s).
Proof.
  split; [|split; [|split]].
  - intros uuid data s'.
    destruct (post_command_frame now uuid data s) as (Hr & Hl & Hd).
    repeat split; try done.
    destruct (accepted now uuid data) as [[e c]|] eqn:Hacc.
    + intros k Hk. unfold s'.
      destruct (post_command_accepted now uuid data s e c Hacc) as [msg ->].
      simpl. by rewrite lookup_insert_ne.
    + by apply post_command_rejected.
  - intros device_id s'.
    destruct (get_commands_last_seen now device_id s) as (Hl & Hr & Hd).
    repeat split; try done.
    + intros k Hk. by apply get_commands_queue.
    + intros d Hd'. unfold s'. rewrite Hl. by apply lookup_insert_ne.
  - intros command_id request s'.
    destruct (post_result_frame writable now command_id request s)
      as (Hq & Hl & Hr).
    repeat split; try done. intros path Hpath.
    destruct (post_result_disk writable now command_id request s path)
      as [Hsame|(file & Hnamed & -> & _)]; [done|].
    by destruct (Hpath file Hnamed).
  - intros command_id. apply get_result_state.
Qed.

(** C10, at an input where the code departs from it.  The file of a blob is
    named [command_id + "_" + filename], so the upload of [c] for the
    command id [a_b] writes the file that the entry of [a], uploaded as
    [b_c], points to.  The entry of [a] in the store is unchanged, but its
    blob is: a fetch of [a] returned the first upload before and returns the
    bytes uploaded for [a_b] after. *)
Theorem upload_changes_what_another_id_fetches :
  let ok := λ _ : string, true in
  let first :=
    Request.mk {["file" := FileStorage.mk "b_c" [Byte.x01]]}
      (Exc UnsupportedMediaType) in
  let second :=
    Request.mk {["file" := FileStorage.mk "c" [Byte.x02]]}
      (Exc UnsupportedMediaType) in
  let s1 := (post_result ok 0 "a" first initial).2 in
  let s2 := (post_result ok 1 "a_b" second s1).2 in
  results_store s1 !! "a" = Some (FileResult "uploads/a_b_c" "b_c" 0)
  ∧ (get_result "a" s1).1 = Reply (Attachment [Byte.x01] "b_c")
  ∧ results_store s2 !! "a_b" = Some (FileResult "uploads/a_b_c" "c" 1)
  ∧ results_store s2 !! "a" = results_store s1 !! "a"
  ∧ disk s2 !! "uploads/a_b_c" = Some [Byte.x02]
  ∧ (get_result "a" s2).1 = Reply (Attachment [Byte.x02] "b_c").
Proof.
  intros ok first second s1 s2. repeat split; by vm_compute.
Qed.



(** An enqueue that answers with a command id answers with the one that
    [uuid4] generated for it. *)
Lemma post_command_queued_id now uuid request_json s command_id message :
  (post_command now uuid request_json s).1 = Reply (Queued command_id message) →
  command_id = uuid.
Proof.
  destruct (accepted now uuid request_json) as [[k c]|] eqn:Hacc.
  - destruct (post_command_accepted now uuid request_json s k c Hacc) as [msg ->].
    by intros [= -> _].
  - unfold post_command.
    destruct request_json as [data|e]; [|done]. cbn [mbind py_bind].
    destruct (truthy data); [|done]. simpl.
    destruct data as [| | | | |fields]; simpl; try done.
    + by destruct (bool_decide _); [destruct (bool_decide _)|].
    + by destruct (existsb _ _); [destruct (existsb _ _)|].
    + simpl in Hacc. unfold py_getitem, py_get.
      destruct (fields !! "device_id") as [device_id|] eqn:Hd; simpl; [|done].
      destruct (fields !! "action") as [action|] eqn:Ha; simpl; [|done].
      simpl in Hacc. by destruct (as_hashable device_id).
Qed.

Lemma returned_ids_sublist writable removable trace : ∀ s,
  returned_ids (run writable removable trace s).1 `sublist_of` uuids trace.
Proof.
  induction trace as [|r trace IH]; intros s; [done|].
  rewrite run_cons. cbn [fst].
  destruct r as [now_at|now uuid data|now d|now c request|c|now|now|now];
    try apply IH.
  cbn [step uuids]. unfold prod_map. cbn [fst snd].
  destruct (post_command now uuid data s).1 as [reply|e] eqn:Hreply;
    [destruct reply|]; cbn [returned_ids]; try (apply sublist_cons, IH).
  apply post_command_queued_id in Hreply as ->. apply sublist_skip, IH.
Qed.

(** C4, as the code has it.  For a body that is a JSON object, an enqueue
    answers InvalidRequest exactly when the object lacks the key
    [device_id] or the key [action]; only the presence of the keys is
    tested, so empty values are accepted.  When both keys are present and
    the device id is a string (or another hashable value), the enqueue
    succeeds: it appends the command, stamped with the current time, to the
    back of that endpoint's queue, creating the queue if there is none, and
    returns the identifier that [uuid4] generated for it.  That identifier
    is unique: along any trace the identifiers returned by the enqueues are
    pairwise distinct, as the values of [uuid4] are. *)
Theorem post_command_invalid_iff_key_absent
    (now : Z) (uuid : string) (fields : gmap string json) (s : state) :
  let out := post_command now uuid (Val (JObj fields)) s in
  (out.1 = Reply missing_fields
   ↔ fields !! "device_id" = None ∨ fields !! "action" = None)
  ∧ (out.1 = Reply missing_fields → out.2 = s)
  ∧ (∀ device_id action h,
       fields !! "device_id" = Some device_id →
       fields !! "action" = Some action →
       as_hashable device_id = Val h →
       out.1 = Reply (Queued uuid ("Command queued for device " +:+ py_str h))
       ∧ command_queue out.2 !! key_of h =
           Some (default [] (command_queue s !! key_of h)
                 ++ [Command.mk uuid action
                       (default (JObj ∅) (fields !! "params")) now]))
  ∧ (∀ writable removable trace s0,
       NoDup (uuids trace) →
       NoDup (returned_ids (run writable removable trace s0).1)).
Proof.
  split; [|split; [|split]].
  - unfold post_command, py_in, py_getitem, py_get. cbn [mbind py_bind].
    destruct (truthy (JObj fields)) eqn:Htruthy; simpl.
    2:{ apply truthy_obj_false in Htruthy as ->. rewrite lookup_empty. tauto. }
    destruct (fields !! "device_id") as [d|]; simpl; [|tauto].
    destruct (fields !! "action") as [a|]; simpl; [|tauto].
    destruct (as_hashable d); simpl; split; try done; by intros [|].
  - destruct (accepted now uuid (Val (JObj fields))) as [[e c]|] eqn:Hacc.
    + by destruct (post_command_accepted now uuid _ s e c Hacc) as [msg ->].
    + intros _. by apply post_command_rejected.
  - intros device_id action h Hd Ha Hh.
    unfold post_command, py_in, py_getitem, py_get. cbn [mbind py_bind].
    assert (truthy (JObj fields) = true) as ->.
    { apply not_false_iff_true. rewrite truthy_obj_false. intros ->.
      by rewrite lookup_empty in Hd. }
    rewrite Hd, Ha. simpl. rewrite Hh. simpl. by rewrite lookup_insert_eq.
  - intros writable removable trace s0 Hnd.
    eapply sublist_NoDup; [done|]. apply returned_ids_sublist.
Qed.

(** C4 as stated fails: a body whose [device_id] and [action] are both the
    empty string is accepted, and the command is queued under the endpoint
    named by the empty string. *)
Lemma post_command_accepts_empty_fields :
  let data := JObj {["device_id" := JStr ""; "action" := JStr ""]} in
  missing_or_empty "device_id" data
  ∧ missing_or_empty "action" data
  ∧ (post_command 0 "u1" (Val data) initial).1 =
      Reply (Queued "u1" "Command queued for device ")
  ∧ command_queue (post_command 0 "u1" (Val data) initial).2 !! KStr "" =
      Some [Command.mk "u1" (JStr "") (JObj ∅) 0].
Proof.
  split; [by right|]. split; [by right|]. split; by vm_compute.
Qed.

(** The half of C2 that the code keeps: whatever was stored before, after an
    upload that is accepted a fetch returns that upload. *)
Lemma post_result_last_write_wins
    (writable : string → bool) (now : Z) (command_id : string)
    (request : Request.t) (s : state) :
  let s' := (post_result writable now command_id request s).2 in
  (∀ file,
     named_file request = Some file →
     writable (blob_path command_id file) = true →
     (get_result command_id s').1 =
       Reply (Attachment (FileStorage.content file) (FileStorage.filename file)))
  ∧ (∀ data,
     named_file request = None →
     Request.json request = Val data →
     truthy data = true →
     (get_result command_id s').1 = Reply (Payload data)).
Proof.
  rewrite post_result_cases. unfold get_result, read_file. split.
  - intros file -> ->. simpl. by rewrite !lookup_insert_eq.
  - intros data -> -> ->. simpl. by rewrite lookup_insert_eq.
Qed.

(** C2, at an input where the code departs from it.  Two blobs are uploaded
    for the command id [c1], named [a.txt] and then [b.txt].  The second
    replaces the first in the store and a fetch returns the second; but the
    file saved for the first is still on disk after the overwrite, and is
    still there after the cleanup pass that evicts the entry and removes the
    second file: it is never released. *)
Theorem overwritten_blob_is_never_released :
  let ok := λ _ : string, true in
  let first :=
    Request.mk {["file" := FileStorage.mk "a.txt" [Byte.x01]]}
      (Exc UnsupportedMediaType) in
  let second :=
    Request.mk {["file" := FileStorage.mk "b.txt" [Byte.x02]]}
      (Exc UnsupportedMediaType) in
  let s1 := (post_result ok 0 "c1" first initial).2 in
  let s2 := (post_result ok 1 "c1" second s1).2 in
  results_store s1 !! "c1" = Some (FileResult "uploads/c1_a.txt" "a.txt" 0)
  ∧ results_store s2 !! "c1" = Some (FileResult "uploads/c1_b.txt" "b.txt" 1)
  ∧ (get_result "c1" s2).1 = Reply (Attachment [Byte.x02] "b.txt")
  ∧ disk s2 !! "uploads/c1_a.txt" = Some [Byte.x01]
  ∧ ∃ s3, cleanup_pass ok (RESULT_EXPIRY + 2) s2 = Val (Some 1%nat, s3)
          ∧ results_store s3 = ∅
          ∧ disk s3 !! "uploads/c1_b.txt" = None
          ∧ disk s3 !! "uploads/c1_a.txt" = Some [Byte.x01].
Proof.
  intros ok first second s1 s2.
  repeat (split; [by vm_compute|]).
  eexists. split; [by vm_compute|]. repeat split; by vm_compute.
Qed.

(** C9, as the code has it.  A poll sets the last-seen time of its endpoint
    to the clock reading it takes, whatever the record was before.  So along
    any trace of requests whose clock readings do not go back, the last-seen
    time of an endpoint never decreases: a record present after a prefix of
    the trace is present after the whole trace, with a time at least as
    late. *)
Theorem last_seen_never_rewinds
    (writable removable : string → bool) (trace1 trace2 : list request)
    (d : string) (t : Z) :
  StronglySorted Z.le (clock_readings (trace1 ++ trace2)) →
  device_last_seen (run writable removable trace1 initial).2 !! d = Some t →
  (∃ t', device_last_seen (run writable removable (trace1 ++ trace2) initial).2 !! d
           = Some t'
         ∧ t ≤ t')
  ∧ (∀ now s, device_last_seen (get_commands now d s).2 !! d = Some now).
Proof.
  intros Hsorted Hd. split.
  - rewrite run_app. cbn [snd].
    rewrite clock_readings_app in Hsorted.
    apply run_last_seen_mono; [by eapply StronglySorted_app_1_r| |done].
    intros d0 t0 now [Hinit|Hin]%run_last_seen_origin Hnow.
    + simpl in Hinit. by rewrite lookup_empty in Hinit.
    + by eapply StronglySorted_app_1_elem_of.
  - intros now s. destruct (get_commands_last_seen now d s) as (-> & _).
    apply lookup_insert_eq.
Qed.

(** C9 as stated fails: the reading of [datetime.now()] is stored as it is,
    so when the clock reads 20 at one poll and 10 at the next, the record of
    the endpoint goes from 20 back to 10. *)
Lemma last_seen_rewinds_with_the_clock :
  let ok := λ _ : string, true in
  let first := [GET_command 20 "dev1"] in
  let both := [GET_command 20 "dev1"; GET_command 10 "dev1"] in
  device_last_seen (run ok ok first initial).2 !! "dev1" = Some 20
  ∧ device_last_seen (run ok ok both initial).2 !! "dev1" = Some 10
  ∧ ¬ 20 ≤ 10.
Proof.
  intros ok first both. split; [by vm_compute|]. split; [by vm_compute|]. lia.
Qed.

(** C1.  Run any trace of requests from the empty state, the generated
    identifiers being pairwise distinct.  For an endpoint, the outputs of its
    polls, one after the other, followed by what is still queued, are the
    commands enqueued for it, in enqueue order.  So each enqueued command is
    in the output of at most one poll and not also in the queue; it is in
    the output of exactly one poll once it has left the queue, which is the
    case for every command when the trace ends with a poll of the endpoint;
    and each poll's output is in enqueue order. *)
Theorem fifo_exactly_once_delivery
    (writable removable : string → bool) (trace : list request)
    (device_id : string) :
  NoDup (uuids trace) →
  let outs := drained device_id (run writable removable trace initial).1 in
  let rest := pending (KStr device_id) (run writable removable trace initial).2 in
  let enq := enqueued (KStr device_id) trace in
  concat outs ++ rest = enq
  ∧ (∀ c, c ∈ enq → c ∉ rest →
       ∃ i, (∃ o, outs !! i = Some o ∧ c ∈ o)
            ∧ ∀ j o', outs !! j = Some o' → c ∈ o' → j = i)
  ∧ (∀ c o, c ∈ rest → o ∈ outs → c ∉ o)
  ∧ (∀ o, o ∈ outs → o `sublist_of` enq)
  ∧ (∀ trace0 now, trace = trace0 ++ [GET_command now device_id] → rest = []).
Proof.
  intros Hnd outs rest enq.
  assert (concat outs ++ rest = enq) as Heq.
  { unfold outs, rest, enq. rewrite run_conservation. unfold pending at 1.
    simpl. by rewrite lookup_empty. }
  assert (NoDup (concat outs ++ rest)) as Hnd'.
  { rewrite Heq. by apply enqueued_NoDup. }
  apply NoDup_app in Hnd' as (Houts & Hdisj & _).
  split; [done|]. split; [|split; [|split]].
  - intros c Hc Hrest. rewrite <-Heq in Hc.
    apply elem_of_app in Hc as [Hc|Hc]; [|done].
    apply elem_of_concat in Hc as (i & o & Hi & Ho).
    exists i. split; [eauto|]. intros j o' Hj Ho'.
    by eapply concat_NoDup_block.
  - intros c o Hc [i Hi]%list_elem_of_lookup Ho.
    apply (Hdisj c); [|done]. apply elem_of_concat. eauto.
  - intros o Ho. rewrite <-Heq. by apply sublist_inserts_r, sublist_concat.
  - intros trace0 now ->. unfold rest. rewrite run_app. cbn [snd].
    rewrite run_cons. cbn [snd]. simpl.
    rewrite get_commands_pending. by rewrite decide_True.
Qed.

(** C1 at the scenario of the specification, with two more enqueues. *)
Lemma fifo_exactly_once_delivery_witness :
  let ok := λ _ : string, true in
  let ping := Val (JObj {["device_id" := JStr "dev1"; "action" := JStr "ping"]}) in
  let trace :=
    [POST_command 0 "c1" ping; GET_command 1 "dev1"; POST_command 2 "c2" ping;
     POST_command 3 "c3" ping; GET_command 4 "dev1"; GET_command 5 "dev1"] in
  NoDup (uuids trace)
  ∧ drained "dev1" (run ok ok trace initial).1 =
      [[Command.mk "c1" (JStr "ping") (JObj ∅) 0];
       [Command.mk "c2" (JStr "ping") (JObj ∅) 2;
        Command.mk "c3" (JStr "ping") (JObj ∅) 3];
       []]
  ∧ concat (drained "dev1" (run ok ok trace initial).1)
      ++ pending (KStr "dev1") (run ok ok trace initial).2 =
    enqueued (KStr "dev1") trace.
Proof.
  intros ok ping trace.
  assert (NoDup (uuids trace)) as Hnd.
  { apply (bool_decide_unpack _). by vm_compute. }
  split; [done|]. split; [by vm_compute|].
  apply (fifo_exactly_once_delivery ok ok trace "dev1" Hnd).
Defined.

(** C9 on two polls of one endpoint, ten time units apart. *)
Lemma last_seen_never_rewinds_witness :
  let ok := λ _ : string, true in
  let trace1 := [GET_command 10 "dev1"] in
  let trace2 := [GET_devices 15; GET_command 20 "dev1"] in
  StronglySorted Z.le (clock_readings (trace1 ++ trace2))
  ∧ device_last_seen (run ok ok trace1 initial).2 !! "dev1" = Some 10
  ∧ ∃ t', device_last_seen (run ok ok (trace1 ++ trace2) initial).2 !! "dev1"
            = Some t'
          ∧ 10 ≤ t'.
Proof.
  intros ok trace1 trace2.
  assert (StronglySorted Z.le (clock_readings (trace1 ++ trace2))) as Hsorted.
  { simpl. repeat constructor; lia. }
  assert (device_last_seen (run ok ok trace1 initial).2 !! "dev1" = Some 10)
    as Hd by by vm_compute.
  split; [done|]. split; [done|].
  apply (last_seen_never_rewinds ok ok trace1 trace2 "dev1" 10 Hsorted Hd).
Defined.

(** ** Further properties of the handlers *)

(** X1.  A body that is not a JSON object never enqueues anything: the
    request is answered 400 or dies with a [TypeError], and the state is
    untouched.  A list that contains both key names passes the guard and
    dies at the subscript. *)
Theorem post_command_needs_an_object (now : Z) (uuid : string) (data : json)
    (s : state) :
  (∀ fields, data ≠ JObj fields) →
  (post_command now uuid (Val data) s).2 = s
  ∧ ((post_command now uuid (Val data) s).1 = Reply missing_fields
     ∨ (post_command now uuid (Val data) s).1 = Raise TypeError)
  ∧ (∀ items, data = JArr items →
       JStr "device_id" ∈ items → JStr "action" ∈ items →
       (post_command now uuid (Val data) s).1 = Raise TypeError).
Proof.
  intros Hobj.
  assert (accepted now uuid (Val data) = None) as Hacc.
  { destruct data; try done. by destruct (Hobj fields). }
  split; [by apply post_command_rejected|]. split.
  - unfold post_command, py_in. cbn [mbind py_bind].
    destruct data as [| |n|str|items|fields].
    + by left.
    + destruct b; simpl; auto.
    + simpl. destruct (n =? 0); simpl; auto.
    + simpl truthy. destruct (String.eqb str ""); [by left|].
      destruct (bool_decide (is_Some (String.index 0 "device_id" str))),
        (bool_decide (is_Some (String.index 0 "action" str))); simpl; auto.
    + destruct items as [|item items]; [by left|]. simpl truthy.
      destruct (existsb (is_str "device_id") (item :: items)),
        (existsb (is_str "action") (item :: items)); simpl; auto.
    + by destruct (Hobj fields).
  - intros items -> Hd Ha. unfold post_command, py_in. cbn [mbind py_bind].
    assert (∀ key, JStr key ∈ items → existsb (is_str key) items = true) as Hin.
    { intros key Hkey. apply existsb_exists. exists (JStr key).
      split; [by apply list_elem_of_In|]. simpl. apply String.eqb_refl. }
    destruct items as [|item items]; [by apply elem_of_nil in Hd|].
    cbn [truthy negb]. by rewrite (Hin _ Hd), (Hin _ Ha).
Qed.

Lemma post_command_needs_an_object_witness :
  let data := JArr [JStr "device_id"; JStr "action"] in
  (∀ fields, data ≠ JObj fields)
  ∧ (post_command 0 "u1" (Val data) initial).2 = initial
  ∧ (post_command 0 "u1" (Val data) initial).1 = Raise TypeError.
Proof.
  intros data.
  assert (∀ fields, data ≠ JObj fields) as Hobj by done.
  destruct (post_command_needs_an_object 0 "u1" data initial Hobj)
    as (Hs & _ & Harr).
  split; [done|]. split; [done|].
  apply (Harr _ eq_refl); repeat constructor.
Defined.

(** X2.  A [device_id] that is a list or an object cannot be a dictionary
    key: the request dies with a [TypeError] at [device_id not in
    command_queue], and nothing is queued. *)
Theorem post_command_unhashable_device_id (now : Z) (uuid : string)
    (fields : gmap string json) (device_id action : json) (s : state) :
  fields !! "device_id" = Some device_id →
  fields !! "action" = Some action →
  as_hashable device_id = Exc TypeError →
  post_command now uuid (Val (JObj fields)) s = (Raise TypeError, s).
Proof.
  intros Hd Ha Hh. unfold post_command, py_in, py_getitem, py_get.
  cbn [mbind py_bind].
  assert (truthy (JObj fields) = true) as ->.
  { apply not_false_iff_true. rewrite truthy_obj_false. intros ->.
    by rewrite lookup_empty in Hd. }
  rewrite Hd, Ha. simpl. by rewrite Hh.
Qed.

Lemma post_command_unhashable_device_id_witness :
  let fields : gmap string json :=
    {["device_id" := JArr [JStr "dev1"]; "action" := JStr "ping"]} in
  post_command 0 "u1" (Val (JObj fields)) initial = (Raise TypeError, initial).
Proof.
  intros fields.
  by apply (post_command_unhashable_device_id 0 "u1" fields
              (JArr [JStr "dev1"]) (JStr "ping") initial).
Defined.

Section MoreTraces.
Context (writable removable : string → bool).
#[local] Abbreviation step' := (step writable removable).
#[local] Abbreviation run' := (run writable removable).

(** How one request changes the queue filed under any key. *)
Lemma step_pending_key r s k :
  pending k (step' r s).2 =
    match r with
    | GET_command _ d => if decide (k = KStr d) then [] else pending k s
    | _ => pending k s ++ enqueued k [r]
    end.
Proof.
  destruct r as [now_at|now uuid data|now d|now c request|c|now|now|now].
  - simpl. by rewrite app_nil_r.
  - apply post_command_pending.
  - apply get_commands_pending.
  - unfold pending. simpl.
    destruct (post_result_frame writable now c request s) as (-> & _).
    by rewrite app_nil_r.
  - simpl. by rewrite get_result_state, app_nil_r.
  - simpl. by rewrite app_nil_r.
  - simpl. by rewrite app_nil_r.
  - unfold pending. simpl.
    destruct (cleanup_pass_spec removable now s) as (p & s1 & -> & _ & Hq & _).
    simpl. by rewrite Hq, app_nil_r.
Qed.

(** X3.  Polls address endpoints by the string in the URL, so a queue filed
    under a [device_id] that is a number, a boolean or null is never handed
    out nor emptied: along any trace it only grows by the commands enqueued
    for it. *)
Theorem non_string_endpoint_is_never_drained
    (trace : list request) (s : state) (k : pykey) :
  (∀ d, k ≠ KStr d) →
  pending k (run' trace s).2 = pending k s ++ enqueued k trace.
Proof.
  intros Hk. revert s. induction trace as [|r trace IH]; intros s.
  - simpl. by rewrite app_nil_r.
  - rewrite run_cons. cbn [snd].
    rewrite IH, step_pending_key, (enqueued_cons k r trace).
    destruct r; try by rewrite app_assoc.
    rewrite decide_False by apply Hk. done.
Qed.

(** X4.  A poll hands out, in order, whatever was queued for the endpoint
    plus everything enqueued for it since, as long as no other poll of the
    endpoint came in between; so the second of two polls returns exactly the
    commands enqueued between them. *)
Theorem poll_returns_everything_since_last_poll
    (trace : list request) (s : state) (device_id : string) (now1 now2 : Z) :
  no_poll_of device_id trace →
  (get_commands now2 device_id (run' trace s).2).1 =
    Reply (Commands (pending (KStr device_id) s ++ enqueued (KStr device_id) trace))
  ∧ (get_commands now2 device_id
       (run' trace (get_commands now1 device_id s).2).2).1 =
      Reply (Commands (enqueued (KStr device_id) trace)).
Proof.
  intros Hno.
  assert (∀ s0, pending (KStr device_id) (run' trace s0).2 =
                pending (KStr device_id) s0 ++ enqueued (KStr device_id) trace)
    as Hpending.
  { induction Hno as [|r rest Hr _ IH]; intros s0.
    - simpl. by rewrite app_nil_r.
    - rewrite run_cons. cbn [snd].
      rewrite IH, step_pending_key, (enqueued_cons _ r rest).
      destruct r; try by rewrite app_assoc.
      rewrite decide_False by congruence. done. }
  split.
  - by rewrite get_commands_reply, Hpending.
  - rewrite get_commands_reply, Hpending, get_commands_pending.
    by rewrite decide_True.
Qed.

(** X5.  The liveness record of an endpoint after a trace is the clock
    reading of its most recent poll, whether or not that reading is later
    than the previous one; an endpoint that was not polled keeps the record
    it had.  From the empty state, an endpoint has a record exactly when it
    has polled, and no request ever removes a record. *)
Theorem last_seen_is_most_recent_poll
    (trace : list request) (s : state) (device_id : string) :
  device_last_seen (run' trace s).2 !! device_id =
    match last_poll device_id trace with
    | Some t => Some t
    | None => device_last_seen s !! device_id
    end
  ∧ device_last_seen (run' trace initial).2 !! device_id = last_poll device_id trace
  ∧ (is_Some (device_last_seen s !! device_id) →
     is_Some (device_last_seen (run' trace s).2 !! device_id)).
Proof.
  assert (∀ s0, device_last_seen (run' trace s0).2 !! device_id =
            match last_poll device_id trace with
            | Some t => Some t
            | None => device_last_seen s0 !! device_id
            end) as Hrun.
  { induction trace as [|r trace IH]; intros s0; [done|].
    rewrite run_cons. cbn [snd]. rewrite IH. simpl.
    destruct (last_poll device_id trace) as [t|]; [done|].
    rewrite step_last_seen. destruct r; try done.
    rewrite lookup_insert. by case_decide. }
  split; [apply Hrun|]. split.
  - rewrite Hrun. simpl. rewrite lookup_empty.
    by destruct (last_poll device_id trace).
  - rewrite Hrun. by destruct (last_poll device_id trace).
Qed.

End MoreTraces.

Lemma non_string_endpoint_is_never_drained_witness :
  let ok := λ _ : string, true in
  let ping := Val (JObj {["device_id" := JNum 7; "action" := JStr "ping"]}) in
  let trace := [POST_command 0 "c1" ping; GET_command 1 "7"; GET_command 2 ""] in
  (∀ d, KInt 7 ≠ KStr d)
  ∧ pending (KInt 7) (run ok ok trace initial).2 =
      [Command.mk "c1" (JStr "ping") (JObj ∅) 0].
Proof.
  intros ok ping trace.
  assert (∀ d, KInt 7 ≠ KStr d) as Hk by done.
  split; [done|].
  by rewrite (non_string_endpoint_is_never_drained ok ok trace initial (KInt 7) Hk).
Defined.

Lemma poll_returns_everything_since_last_poll_witness :
  let ok := λ _ : string, true in
  let ping := Val (JObj {["device_id" := JStr "dev1"; "action" := JStr "ping"]}) in
  let trace := [POST_command 2 "c2" ping; GET_command 3 "dev2"; POST_command 4 "c3" ping] in
  no_poll_of "dev1" trace
  ∧ (get_commands 5 "dev1" (run ok ok trace (get_commands 1 "dev1" initial).2).2).1 =
      Reply (Commands [Command.mk "c2" (JStr "ping") (JObj ∅) 2;
                       Command.mk "c3" (JStr "ping") (JObj ∅) 4]).
Proof.
  intros ok ping trace.
  assert (no_poll_of "dev1" trace) as Hno by (by repeat constructor).
  split; [done|].
  by destruct (poll_returns_everything_since_last_poll ok ok trace initial
                 "dev1" 1 5 Hno) as (_ & ->).
Defined.

(** ** Further properties of the cleanup thread *)

Section MoreCleanup.
Context (removable : string → bool).

Lemma cleanup_pass_nothing_expired now s :
  (∀ k v, results_store s !! k = Some v → is_expired now v = false) →
  cleanup_pass removable now s = Val (None, s).
Proof.
  intros Hlive. unfold cleanup_pass.
  destruct (expired_keys now (results_store s)) as [|k l] eqn:Hexp; [done|].
  assert (k ∈ expired_keys now (results_store s)) as Hk by (rewrite Hexp; by left).
  apply elem_of_expired_keys in Hk as (v & Hv & Hexpired).
  rewrite (Hlive k v Hv) in Hexpired. done.
Qed.

Lemma cleanup_pass_printed now s printed s' :
  cleanup_pass removable now s = Val (printed, s') →
  printed = match expired_keys now (results_store s) with
            | [] => None
            | expired => Some (length expired)
            end.
Proof.
  unfold cleanup_pass. destruct (evict_all _ _ _); simpl; [|done].
  intros [= <- _]. by destruct (expired_keys now (results_store s)).
Qed.

Lemma cleanup_pass_filter now s printed s' :
  cleanup_pass removable now s = Val (printed, s') →
  results_store s' = filter (λ kv, ¬ is_expired now kv.2 = true) (results_store s).
Proof.
  intros Hpass.
  destruct (cleanup_pass_spec removable now s) as (p & s1 & Hp & Hr & _).
  rewrite Hpass in Hp. injection Hp as <- <-.
  apply map_eq. intros k. rewrite Hr, map_lookup_filter.
  destruct (results_store s !! k) as [v|]; simpl; [|done].
  destruct (is_expired now v) eqn:Hexp.
  - by rewrite option_guard_False by auto.
  - by rewrite option_guard_True by auto.
Qed.

(** X6.  A cleanup pass leaves nothing for a pass at the same or an earlier
    time: run again, it evicts nothing, prints nothing and changes nothing. *)
Theorem cleanup_pass_leaves_nothing_expired
    (now now' : Z) (s s' : state) (printed : option nat) :
  cleanup_pass removable now s = Val (printed, s') →
  now' ≤ now →
  cleanup_pass removable now' s' = Val (None, s').
Proof.
  intros Hpass Hle. apply cleanup_pass_nothing_expired. intros k v Hk.
  rewrite (cleanup_pass_filter _ _ _ _ Hpass) in Hk.
  apply map_lookup_filter_Some in Hk as [_ Hlive]. simpl in Hlive.
  apply not_true_iff_false. rewrite is_expired_spec in *. lia.
Qed.

(** X7.  The number a pass prints is the number of entries it removes, and
    it prints nothing exactly when it removes nothing. *)
Theorem cleanup_pass_prints_number_removed (now : Z) (s : state) :
  ∃ printed s', cleanup_pass removable now s = Val (printed, s')
    ∧ size (results_store s) = (size (results_store s') + default 0 printed)%nat
    ∧ (printed = None ↔ results_store s' = results_store s).
Proof.
  destruct (cleanup_pass_spec removable now s) as (printed & s' & Hpass & _).
  exists printed, s'. split; [done|].
  pose proof (cleanup_pass_printed _ _ _ _ Hpass) as Hprinted.
  pose proof (cleanup_pass_filter _ _ _ _ Hpass) as Hstore.
  set (P := λ kv : string * result, is_expired now kv.2 = true) in *.
  assert (length (expired_keys now (results_store s)) = size (filter P (results_store s)))
    as Hlen.
  { unfold expired_keys. by rewrite length_fmap, size_filter_map_to_list. }
  assert (size (results_store s) =
          (size (results_store s') + size (filter P (results_store s)))%nat) as Hsize.
  { rewrite <-(map_filter_union_complement P (results_store s)) at 1.
    rewrite map_size_disj_union by apply map_disjoint_filter_complement.
    rewrite Nat.add_comm. f_equal. by rewrite Hstore. }
  assert (default 0%nat printed = length (expired_keys now (results_store s)))
    as Hdefault.
  { rewrite Hprinted. by destruct (expired_keys now (results_store s)). }
  split; [lia|]. split.
  - intros ->. rewrite Hstore. apply map_filter_id. intros k v Hk.
    simpl in Hdefault. symmetry in Hdefault. apply length_zero_iff_nil in Hdefault.
    intros Hexp. assert (k ∈ expired_keys now (results_store s)) as Hin.
    { apply elem_of_expired_keys. eauto. }
    rewrite Hdefault in Hin. by apply elem_of_nil in Hin.
  - intros Heq. rewrite Heq in Hsize.
    assert (length (expired_keys now (results_store s)) = 0%nat) as Hzero by lia.
    apply length_zero_iff_nil in Hzero. by rewrite Hprinted, Hzero.
Qed.

(** X8.  Left to itself (no request served in the middle of a pass), the
    cleanup loop never raises: for any wake-up times, every pass succeeds.
    In the end the store holds exactly the entries that were expired at none
    of the wake-up times, and the queues and the liveness records are as
    they were. *)
Theorem cleanup_old_data_keeps_the_survivors (wakeups : list Z) (s : state) :
  ∃ s', cleanup_old_data removable wakeups s = Val s'
    ∧ results_store s' = filter (λ kv, survives wakeups kv.2) (results_store s)
    ∧ command_queue s' = command_queue s
    ∧ device_last_seen s' = device_last_seen s.
Proof.
  revert s. induction wakeups as [|now later IH]; intros s.
  - exists s. split; [done|]. split; [|done].
    symmetry. apply map_filter_id. intros k v _. constructor.
  - destruct (cleanup_pass_spec removable now s) as (p & s1 & Hp & _ & Hq1 & Hl1).
    pose proof (cleanup_pass_filter _ _ _ _ Hp) as Hr1.
    destruct (IH s1) as (s' & Hloop & Hr & Hq & Hl).
    exists s'. simpl. rewrite Hp. simpl. split; [done|].
    split; [|split; congruence].
    rewrite Hr, Hr1, map_filter_filter. apply map_filter_ext.
    intros k v _. simpl. unfold survives. rewrite Forall_cons, is_expired_spec.
    tauto.
Qed.

Lemma evict_disk k v s s' :
  results_store s !! k = Some v →
  evict removable k s = Val s' →
  results_store s' = delete k (results_store s)
  ∧ disk s' =
      match v with
      | FileResult path _ _ => if removable path then delete path (disk s) else disk s
      | DataResult _ _ => disk s
      end.
Proof.
  intros Hk. unfold evict. rewrite Hk. intros [= <-].
  destruct v as [path name t|data t]; [|done].
  unfold os_remove. destruct (disk s !! path) eqn:Hpath; simpl.
  - by destruct (removable path).
  - split; [done|]. destruct (removable path); [|done].
    symmetry. by apply delete_id.
Qed.

Lemma evict_all_disk expired : ∀ s s' path,
  NoDup expired →
  evict_all removable expired s = Val s' →
  (disk s !! path = None → disk s' !! path = None)
  ∧ (∀ k name t,
       k ∈ expired → results_store s !! k = Some (FileResult path name t) →
       removable path = true → disk s' !! path = None)
  ∧ ((∀ k name t, k ∈ expired →
        results_store s !! k ≠ Some (FileResult path name t))
     ∨ removable path = false →
     disk s' !! path = disk s !! path).
Proof.
  induction expired as [|k rest IH]; intros s s' path Hnd Hall.
  - injection Hall as <-. split; [done|]. split; [|done].
    by intros k name t ?%elem_of_nil.
  - apply NoDup_cons in Hnd as [Hk Hnd]. simpl in Hall.
    destruct (evict removable k s) as [s1|] eqn:Hev; [|done]. simpl in Hall.
    destruct (results_store s !! k) as [v|] eqn:Hv.
    2:{ unfold evict in Hev. by rewrite Hv in Hev. }
    destruct (evict_disk k v s s1 Hv Hev) as [Hr1 Hd1].
    destruct (IH s1 s' path Hnd Hall) as (Hnone & Hgone & Hsame).
    assert (∀ k', k' ∈ rest → results_store s1 !! k' = results_store s !! k')
      as Hrest.
    { intros k' Hk'. rewrite Hr1. apply lookup_delete_ne. by intros ->. }
    split; [|split].
    + intros Hpath. apply Hnone. rewrite Hd1.
      destruct v as [p ? ?|? ?]; [destruct (removable p)|]; try done.
      rewrite lookup_delete. by case_decide.
    + intros k0 name t [->|Hin]%elem_of_cons Hk0 Hrem.
      * apply Hnone. rewrite Hd1. simplify_eq. rewrite Hrem.
        apply lookup_delete_eq.
      * apply (Hgone k0 name t); [done| |done]. by rewrite Hrest.
    + intros Hcase. rewrite Hsame.
      * rewrite Hd1. destruct v as [p name t|? ?]; [|done].
        destruct (removable p) eqn:Hrem; [|done].
        apply lookup_delete_ne. intros ->.
        destruct Hcase as [Hno|Hfalse]; [|congruence].
        apply (Hno k name t); [by left|done].
      * destruct Hcase as [Hno|Hfalse]; [left|by right].
        intros k0 name t Hin. rewrite (Hrest _ Hin).
        apply Hno. by right.
Qed.

(** X9.  What a cleanup pass does to the upload directory: the file of every
    evicted blob entry is removed when the system allows it, and a file that
    no evicted entry points to, or that cannot be removed, is left as it
    is. *)
Theorem cleanup_pass_releases_expired_files (now : Z) (s : state) (path : string) :
  ∃ printed s', cleanup_pass removable now s = Val (printed, s')
    ∧ (expired_file_at now path s → removable path = true →
       disk s' !! path = None)
    ∧ (¬ expired_file_at now path s → disk s' !! path = disk s !! path)
    ∧ (removable path = false → disk s' !! path = disk s !! path).
Proof.
  destruct (cleanup_pass_spec removable now s) as (printed & s' & Hpass & _).
  exists printed, s'. split; [done|].
  assert (evict_all removable (expired_keys now (results_store s)) s = Val s')
    as Hall.
  { unfold cleanup_pass in Hpass. destruct (evict_all _ _ _); simpl in Hpass; [|done].
    by injection Hpass as _ ->. }
  destruct (evict_all_disk _ s s' path (NoDup_expired_keys now _) Hall)
    as (_ & Hgone & Hsame).
  split; [|split].
  - intros (k & name & t & Hk & Hexp) Hrem. apply (Hgone k name t); [|done..].
    apply elem_of_expired_keys. eexists. split; [done|]. by apply is_expired_spec.
  - intros Hno. apply Hsame. left. intros k name t Hin Hk. apply Hno.
    apply elem_of_expired_keys in Hin as (v & Hv & Hexp).
    exists k, name, t. split; [done|]. rewrite Hk in Hv. injection Hv as <-.
    by apply is_expired_spec in Hexp.
  - intros Hrem. apply Hsame. by right.
Qed.

End MoreCleanup.

Lemma cleanup_pass_leaves_nothing_expired_witness :
  let ok := λ _ : string, true in
  let s := (post_result ok 0 "c1" (Request.mk ∅ (Val (JNum 1))) initial).2 in
  cleanup_pass ok (RESULT_EXPIRY + 1) s = Val (Some 1%nat, initial)
  ∧ RESULT_EXPIRY ≤ RESULT_EXPIRY + 1
  ∧ cleanup_pass ok RESULT_EXPIRY initial = Val (None, initial).
Proof.
  intros ok s.
  assert (cleanup_pass ok (RESULT_EXPIRY + 1) s = Val (Some 1%nat, initial))
    as Hpass by by vm_compute.
  assert (RESULT_EXPIRY ≤ RESULT_EXPIRY + 1) as Hle by lia.
  split; [done|]. split; [done|].
  apply (cleanup_pass_leaves_nothing_expired ok (RESULT_EXPIRY + 1) RESULT_EXPIRY
           s initial (Some 1%nat) Hpass Hle).
Defined.

(** ** Further properties of the uploads *)

Lemma string_app_cons x (a b : string) : String x a +:+ b = String x (a +:+ b).
Proof. reflexivity. Qed.

Lemma string_app_assoc (a b c : string) : (a +:+ b) +:+ c = a +:+ (b +:+ c).
Proof.
  induction a as [|x a IH]; [done|]. rewrite !string_app_cons. by f_equal.
Qed.

Lemma string_app_ne_self (a b : string) : b ≠ "" → a ≠ a +:+ b.
Proof.
  intros Hb. induction a as [|x a IH].
  - intros Heq. apply Hb. symmetry. exact Heq.
  - rewrite string_app_cons. intros [=]. done.
Qed.

Lemma prefix_sep_independent (c r1 r2 : string) :
  String.prefix "/" (c +:+ "_" +:+ r1) = String.prefix "/" (c +:+ "_" +:+ r2).
Proof.
  destruct c as [|x c]; [done|]. rewrite !string_app_cons.
  cbn [String.prefix]. destruct (Ascii.ascii_dec _ x); [|done].
  assert (∀ t, String.prefix "" t = true) as Hnil by by intros [].
  by rewrite !Hnil.
Qed.

(** For one command id, different filenames give different paths. *)
Lemma blob_path_inj command_id file1 file2 :
  blob_path command_id file1 = blob_path command_id file2 →
  FileStorage.filename file1 = FileStorage.filename file2.
Proof.
  unfold blob_path, os_path_join.
  rewrite (prefix_sep_independent command_id _ (FileStorage.filename file2)).
  destruct (String.prefix _ _); simpl.
  - intros Heq. by do 2 apply (inj (String.append _)) in Heq.
  - intros Heq. by do 4 apply (inj (String.append _)) in Heq.
Qed.

(** The state after an upload whose file part is stored. *)
Lemma post_result_named writable now command_id request file s :
  named_file request = Some file →
  writable (blob_path command_id file) = true →
  (post_result writable now command_id request s).2 =
    set_results_store
      (<[command_id := FileResult (blob_path command_id file)
                         (FileStorage.filename file) now]> (results_store s))
      (set_disk (<[blob_path command_id file := FileStorage.content file]> (disk s)) s).
Proof.
  unfold named_file, post_result, blob_path, file_save.
  destruct (Request.files request !! "file") as [file'|]; [|done].
  destruct (String.eqb _ _); [done|]. intros [= ->] ->. done.
Qed.

(** X10.  The saved file is named [command_id + "_" + filename], so uploads
    for two different command ids can name the same file: after a blob
    [f_g] for [c] and then a blob [g] for [c_f], the entry of [c] is
    unchanged, but a fetch of [c] returns the bytes uploaded for [c_f]. *)
Theorem uploads_for_distinct_ids_can_share_a_file
    (writable : string → bool) (now1 now2 : Z) (c f g : string)
    (request1 request2 : Request.t) (file1 file2 : FileStorage.t) (s : state) :
  named_file request1 = Some file1 →
  named_file request2 = Some file2 →
  FileStorage.filename file1 = f +:+ "_" +:+ g →
  FileStorage.filename file2 = g →
  writable (blob_path (c +:+ "_" +:+ f) file2) = true →
  let s1 := (post_result writable now1 c request1 s).2 in
  let s2 := (post_result writable now2 (c +:+ "_" +:+ f) request2 s1).2 in
  c ≠ c +:+ "_" +:+ f
  ∧ blob_path c file1 = blob_path (c +:+ "_" +:+ f) file2
  ∧ results_store s2 !! c = results_store s1 !! c
  ∧ (get_result c s2).1 =
      Reply (Attachment (FileStorage.content file2) (FileStorage.filename file1)).
Proof.
  intros Hn1 Hn2 Hf1 Hf2 Hw s1 s2.
  assert (c ≠ c +:+ "_" +:+ f) as Hne by by apply string_app_ne_self.
  assert (blob_path c file1 = blob_path (c +:+ "_" +:+ f) file2) as Hpath.
  { unfold blob_path. by rewrite Hf1, Hf2, !string_app_assoc. }
  split; [done|]. split; [done|].
  unfold s2, s1.
  rewrite (post_result_named _ now2 _ _ _ _ Hn2 Hw).
  rewrite (post_result_named _ now1 _ _ _ _ Hn1) by by rewrite Hpath.
  split.
  - simpl. by rewrite lookup_insert_ne.
  - unfold get_result, read_file. simpl.
    rewrite lookup_insert_ne, lookup_insert_eq by done.
    by rewrite Hpath, lookup_insert_eq.
Qed.

Lemma uploads_for_distinct_ids_can_share_a_file_witness :
  let ok := λ _ : string, true in
  let file1 := FileStorage.mk "b_c" [Byte.x01] in
  let file2 := FileStorage.mk "c" [Byte.x02] in
  let request1 := Request.mk {["file" := file1]} (Exc UnsupportedMediaType) in
  let request2 := Request.mk {["file" := file2]} (Exc UnsupportedMediaType) in
  let s1 := (post_result ok 0 "a" request1 initial).2 in
  let s2 := (post_result ok 1 "a_b" request2 s1).2 in
  (get_result "a" s1).1 = Reply (Attachment [Byte.x01] "b_c")
  ∧ (get_result "a" s2).1 = Reply (Attachment [Byte.x02] "b_c").
Proof.
  intros ok file1 file2 request1 request2 s1 s2.
  destruct (uploads_for_distinct_ids_can_share_a_file ok 0 1 "a" "b" "c"
              request1 request2 file1 file2 initial
              eq_refl eq_refl eq_refl eq_refl eq_refl) as (_ & _ & _ & Hfetch).
  split; [by vm_compute|exact Hfetch].
Defined.

(** X11.  Uploading a second blob for the same command id: the entry points
    to the second blob.  With the same filename the file is replaced in
    place; with a different filename the second blob goes to a different
    file and the first file stays on disk with its content. *)
Theorem second_blob_for_the_same_id
    (writable : string → bool) (now1 now2 : Z) (command_id : string)
    (request1 request2 : Request.t) (file1 file2 : FileStorage.t) (s : state) :
  named_file request1 = Some file1 →
  named_file request2 = Some file2 →
  writable (blob_path command_id file1) = true →
  writable (blob_path command_id file2) = true →
  let s1 := (post_result writable now1 command_id request1 s).2 in
  let s2 := (post_result writable now2 command_id request2 s1).2 in
  results_store s2 !! command_id =
    Some (FileResult (blob_path command_id file2) (FileStorage.filename file2) now2)
  ∧ disk s2 !! blob_path command_id file2 = Some (FileStorage.content file2)
  ∧ (FileStorage.filename file1 = FileStorage.filename file2 →
     blob_path command_id file1 = blob_path command_id file2)
  ∧ (FileStorage.filename file1 ≠ FileStorage.filename file2 →
     blob_path command_id file1 ≠ blob_path command_id file2
     ∧ disk s2 !! blob_path command_id file1 = Some (FileStorage.content file1)).
Proof.
  intros Hn1 Hn2 Hw1 Hw2 s1 s2. unfold s2, s1.
  rewrite (post_result_named _ now2 _ _ _ _ Hn2 Hw2).
  rewrite (post_result_named _ now1 _ _ _ _ Hn1 Hw1). simpl.
  rewrite !lookup_insert_eq. split; [done|]. split; [done|]. split.
  - intros Heq. unfold blob_path. by rewrite Heq.
  - intros Hne.
    assert (blob_path command_id file1 ≠ blob_path command_id file2) as Hpath.
    { by intros ?%blob_path_inj. }
    split; [done|]. rewrite lookup_insert_ne by done. apply lookup_insert_eq.
Qed.

Lemma second_blob_for_the_same_id_witness :
  let ok := λ _ : string, true in
  let file1 := FileStorage.mk "a.txt" [Byte.x01] in
  let file2 := FileStorage.mk "b.txt" [Byte.x02] in
  let request1 := Request.mk {["file" := file1]} (Exc UnsupportedMediaType) in
  let request2 := Request.mk {["file" := file2]} (Exc UnsupportedMediaType) in
  let s1 := (post_result ok 0 "c1" request1 initial).2 in
  let s2 := (post_result ok 1 "c1" request2 s1).2 in
  results_store s2 !! "c1" = Some (FileResult "uploads/c1_b.txt" "b.txt" 1)
  ∧ disk s2 !! "uploads/c1_b.txt" = Some [Byte.x02].
Proof.
  intros ok file1 file2 request1 request2 s1 s2.
  destruct (second_blob_for_the_same_id ok 0 1 "c1" request1 request2
              file1 file2 initial eq_refl eq_refl eq_refl eq_refl)
    as (Hr & Hd & _).
  split; [exact Hr|exact Hd].
Defined.

(** ** Further properties of the device views *)

(** X12.  The two device views agree: when the clock does not move during the
    request, the [active_devices] count of [GET /] is the number of devices
    whose status in [GET /devices] is online.  The snapshot lists exactly the
    endpoints that have a liveness record. *)
Theorem home_counts_the_online_statuses (now : Z) (s : state) :
  ∃ n devices,
    (home (λ _, now) s).1 = Reply (Status n)
    ∧ (list_devices now s).1 = Reply (Devices devices)
    ∧ n = size (filter (λ di, Device.status di.2 = "online") devices)
    ∧ (n ≤ size devices)%nat
    ∧ dom devices = dom (device_last_seen s).
Proof.
  eexists _, _. split; [done|]. split; [done|].
  assert (length (filter (λ dt : string * Z, online_at now dt.2 = true)
                    (map_to_list (device_last_seen s))) =
          size (filter (λ di : string * Device.t, Device.status di.2 = "online")
                  (device_info now <$> device_last_seen s))) as Hcount.
  { rewrite size_filter_map_to_list, map_filter_fmap, map_size_fmap.
    f_equal. apply map_filter_ext. intros d t _. simpl.
    by destruct (online_at now t). }
  split; [done|]. split.
  - rewrite Hcount. apply map_size_filter.
  - apply dom_fmap_L.
Qed.

(** ** An invariant of the result store *)

Section Invariant.
Context (writable removable : string → bool).

Lemma named_file_filename request file :
  named_file request = Some file → FileStorage.filename file ≠ "".
Proof.
  unfold named_file. destruct (Request.files request !! "file") as [file'|]; [|done].
  destruct (String.eqb (FileStorage.filename file') "") eqn:Hname; [done|].
  intros [= <-]. by apply String.eqb_neq.
Qed.

Lemma post_result_store now command_id request s c v :
  results_store (post_result writable now command_id request s).2 !! c = Some v →
  results_store s !! c = Some v
  ∨ (c = command_id ∧ stored_by_post_result command_id v).
Proof.
  rewrite post_result_cases.
  destruct (named_file request) as [file|] eqn:Hnamed.
  - destruct (writable _); simpl; [|auto].
    rewrite lookup_insert. case_decide; [|auto]. intros [= <-]. right.
    split; [done|]. split; [|done]. by eapply named_file_filename.
  - destruct (Request.json request) as [data|e]; [|auto].
    destruct (truthy data) eqn:Htruthy; simpl; [|auto].
    rewrite lookup_insert. case_decide; [|auto]. intros [= <-]. by right.
Qed.

Lemma step_results_store r s c v :
  results_store (step writable removable r s).2 !! c = Some v →
  results_store s !! c = Some v ∨ stored_by_post_result c v.
Proof.
  destruct r as [now_at|now uuid data|now d|now c' request|c'|now|now|now]; simpl;
    auto.
  - destruct (post_command_frame now uuid data s) as (-> & _). auto.
  - destruct (get_commands_last_seen now d s) as (_ & -> & _). auto.
  - intros [?|[-> ?]]%post_result_store; auto.
  - rewrite get_result_state. auto.
  - destruct (cleanup_pass_spec removable now s) as (p & s' & -> & Hr & _).
    simpl. rewrite Hr. destruct (results_store s !! c) as [v'|]; [|done].
    destruct (is_expired now v'); [done|auto].
Qed.

(** X13.  Whatever requests are served, the result store only ever holds
    entries of the shape [post_result] writes under that id: a blob entry has
    a non-empty filename and the path [uploads/<id>_<filename>], and a data
    entry has a truthy payload. *)
Theorem results_store_holds_only_what_post_result_writes
    (trace : list request) (c : string) (v : result) :
  results_store (run writable removable trace initial).2 !! c = Some v →
  stored_by_post_result c v.
Proof.
  assert (∀ s, results_store (run writable removable trace s).2 !! c = Some v →
               results_store s !! c = Some v ∨ stored_by_post_result c v) as Hrun.
  { induction trace as [|r trace IH]; intros s; [by left|].
    rewrite run_cons. cbn [snd]. intros [Hs1|?]%IH; [|by right].
    by apply step_results_store in Hs1. }
  intros [Hinit|?]%Hrun; [|done]. simpl in Hinit. by rewrite lookup_empty in Hinit.
Qed.

End Invariant.

Lemma results_store_holds_only_what_post_result_writes_witness :
  let ok := λ _ : string, true in
  let upload :=
    Request.mk {["file" := FileStorage.mk "a.txt" [Byte.x01]]}
      (Exc UnsupportedMediaType) in
  let trace := [POST_result 0 "c1" upload; GET_command 1 "dev1"; Sweep 2] in
  results_store (run ok ok trace initial).2 !! "c1" =
    Some (FileResult "uploads/c1_a.txt" "a.txt" 0)
  ∧ stored_by_post_result "c1" (FileResult "uploads/c1_a.txt" "a.txt" 0).
Proof.
  intros ok upload trace.
  assert (results_store (run ok ok trace initial).2 !! "c1" =
            Some (FileResult "uploads/c1_a.txt" "a.txt" 0)) as Hstored
    by by vm_compute.
  split; [done|].
  apply (results_store_holds_only_what_post_result_writes ok ok trace "c1" _ Hstored).
Defined.
